(** * TradingView Strong-Buy screener: extraction, dedup and scan cycle

    A shallow embedding of [tradingview_screener_flask_app.py].

    - Python [str] values are modelled as [string]; a character is a code
      point below 256, so the Unicode-aware classes of [re] ([\d], [\s],
      [re.I]) and [str.strip] are the restrictions of the Python ones to
      that range.
    - [re] is modelled by a backtracking matcher for the fragment of the
      pattern language the program uses, with Python's priorities
      (leftmost start, left alternative first, greedy repetition).
    - [bs4] trees are modelled as a rose tree of tags and strings; an
      element is a node together with its chain of ancestors.
    - The scan cycle is written in a state-and-exception monad; every call
      that leaves the program (HTTP, parser, clock) is an oracle whose
      outcome is a value or a raised exception.
    - Clock values are whole seconds; the status views format them as
      [datetime.utcfromtimestamp] does, and raise where it raises. *)

From stdpp Require Import base option list strings gmap.
From Stdlib Require Import Ascii Lia.

Set Warnings "-register-all".

(** ** Strings *)

Module Str.

(** [s[:n]] *)
Definition take (n : nat) (s : string) : string := String.substring 0 n s.

(** [s[::-1]] *)
Definition reverse (s : string) : string := String.rev s.

(** [s.split(sep)[0]]: the text before the first [sep]. *)
Fixpoint before (sep : ascii) (s : string) : string :=
  match s with
  | EmptyString => EmptyString
  | String c s' => if Ascii.eqb c sep then EmptyString else String c (before sep s')
  end.

(** [sep.join(l)] *)
Fixpoint join (sep : string) (l : list string) : string :=
  match l with
  | [] => EmptyString
  | [s] => s
  | s :: l' => s +:+ sep +:+ join sep l'
  end.

(** [str.isspace] on one character: the white space of Unicode below
    code point 256. *)
Definition isspace (c : ascii) : bool :=
  let n := nat_of_ascii c in
  ((9 <=? n) && (n <=? 13)) || ((28 <=? n) && (n <=? 32))
  || (n =? 133) || (n =? 160).

Fixpoint lstrip (s : string) : string :=
  match s with
  | EmptyString => EmptyString
  | String c s' => if isspace c then lstrip s' else s
  end.

Fixpoint rstrip (s : string) : string :=
  match s with
  | EmptyString => EmptyString
  | String c s' =>
      match rstrip s' with
      | EmptyString => if isspace c then EmptyString else String c EmptyString
      | t => String c t
      end
  end.

(** [s.strip()] *)
Definition strip (s : string) : string := rstrip (lstrip s).

(** Truthiness of a [str]: the empty string is falsy. *)
Definition truthy (s : string) : bool :=
  match s with EmptyString => false | _ => true end.

End Str.

(** ** Regular expressions *)

Module Re.

(** The fragment of the pattern language that occurs in the program:
    character classes, concatenation, alternation, optional groups and
    bounded or unbounded greedy repetition of a character class. *)
Inductive regex : Type :=
| Eps
| Cls (p : ascii -> bool)
| Seq (r1 r2 : regex)
| Alt (r1 r2 : regex)
| Opt (r : regex)
| Many (p : ascii -> bool) (lo : nat) (hi : option nat).

(** Whether a repetition with upper bound [hi] may take one more
    character, and the bound that is left afterwards. *)
Definition has_room (hi : option nat) : bool :=
  match hi with Some 0 => false | _ => true end.

Definition less_room (hi : option nat) : option nat :=
  match hi with Some h => Some (pred h) | None => None end.

Section Matcher.
Context {A : Type}.

(** Greedy repetition: take one more character when possible and fall
    back to stopping here when the rest of the pattern fails. *)
Fixpoint many (p : ascii -> bool) (lo : nat) (hi : option nat)
         (s : string) (k : string -> option A) : option A :=
  let stop := match lo with 0 => k s | S _ => None end in
  match s with
  | EmptyString => stop
  | String c s' =>
      if p c && has_room hi then
        match many p (pred lo) (less_room hi) s' k with
        | Some x => Some x
        | None => stop
        end
      else stop
  end.

(** [go r s k] matches [r] at the start of [s] and hands the rest of
    the text to the continuation [k]; when [k] fails, the next choice
    of [r] in priority order is tried. *)
Fixpoint go (r : regex) (s : string) (k : string -> option A) : option A :=
  match r with
  | Eps => k s
  | Cls p =>
      match s with
      | String c s' => if p c then k s' else None
      | EmptyString => None
      end
  | Seq r1 r2 => go r1 s (fun s' => go r2 s' k)
  | Alt r1 r2 =>
      match go r1 s k with
      | Some x => Some x
      | None => go r2 s k
      end
  | Opt r1 =>
      match go r1 s k with
      | Some x => Some x
      | None => k s
      end
  | Many p lo hi => many p lo hi s k
  end.
End Matcher.

(** [re.search(r, s)]: group 0 of the leftmost match, with the text that
    follows it. *)
Fixpoint search_rest (r : regex) (s : string) : option (string * string) :=
  match go r s (fun rest => Some rest) with
  | Some rest => Some (Str.take (String.length s - String.length rest) s, rest)
  | None =>
      match s with
      | EmptyString => None
      | String _ s' => search_rest r s'
      end
  end.

Definition search (r : regex) (s : string) : option string :=
  fst <$> search_rest r s.

(** Truthiness of [re.search(r, s)]. *)
Definition found (r : regex) (s : string) : bool :=
  match search r s with Some _ => true | None => false end.

(** [re.findall(r, s)] for a pattern without groups: the successive
    non-overlapping matches, left to right. After an empty match the
    scan moves on by one character. *)
Fixpoint findall_fuel (fuel : nat) (r : regex) (s : string) : list string :=
  match fuel with
  | 0 => []
  | S fuel' =>
      match search_rest r s with
      | None => []
      | Some (w, rest) =>
          match w with
          | EmptyString =>
              match rest with
              | EmptyString => [w]
              | String _ rest' => w :: findall_fuel fuel' r rest'
              end
          | _ => w :: findall_fuel fuel' r rest
          end
      end
  end.

Definition findall (r : regex) (s : string) : list string :=
  findall_fuel (S (String.length s)) r s.

(** *** Building patterns *)

Definition chr (c : ascii) : regex := Cls (Ascii.eqb c).

(** A literal under [re.I]. *)
Definition lower (c : ascii) : ascii :=
  let n := nat_of_ascii c in
  if (65 <=? n) && (n <=? 90) then ascii_of_nat (n + 32) else c.

Definition chr_i (c : ascii) : regex :=
  Cls (fun x => Ascii.eqb (lower x) (lower c)).

Fixpoint lit (s : string) : regex :=
  match s with
  | EmptyString => Eps
  | String c EmptyString => chr c
  | String c s' => Seq (chr c) (lit s')
  end.

Fixpoint lit_i (s : string) : regex :=
  match s with
  | EmptyString => Eps
  | String c EmptyString => chr_i c
  | String c s' => Seq (chr_i c) (lit_i s')
  end.

(** [\d] *)
Definition digit (c : ascii) : bool :=
  let n := nat_of_ascii c in (48 <=? n) && (n <=? 57).

(** [\s] *)
Definition space (c : ascii) : bool := Str.isspace c.

(** *** The language of a pattern *)

Fixpoint all_chars (p : ascii -> bool) (s : string) : bool :=
  match s with
  | EmptyString => true
  | String c s' => p c && all_chars p s'
  end.

Definition within (hi : option nat) (n : nat) : Prop :=
  match hi with Some h => n <= h | None => True end.

Inductive matches : regex -> string -> Prop :=
| M_eps : matches Eps ""
| M_cls p c : p c = true -> matches (Cls p) (String c "")
| M_seq r1 r2 w1 w2 :
    matches r1 w1 -> matches r2 w2 -> matches (Seq r1 r2) (w1 +:+ w2)
| M_alt_l r1 r2 w : matches r1 w -> matches (Alt r1 r2) w
| M_alt_r r1 r2 w : matches r2 w -> matches (Alt r1 r2) w
| M_opt_some r w : matches r w -> matches (Opt r) w
| M_opt_none r : matches (Opt r) ""
| M_many p lo hi w :
    all_chars p w = true -> lo <= String.length w ->
    within hi (String.length w) -> matches (Many p lo hi) w.

End Re.

(** ** The parse tree of [bs4] *)

Module Bs4.

(** The classes of string a parse tree holds. Only [NavigableString] and
    [CData] are part of the visible text of an ordinary tag. *)
Inductive string_class : Set :=
| NavigableString | CData | Comment | Declaration | Doctype
| ProcessingInstruction | Script | Stylesheet | TemplateString
| RubyTextString | RubyParenthesisString.

Definition string_class_eqb (a b : string_class) : bool :=
  match a, b with
  | NavigableString, NavigableString | CData, CData | Comment, Comment
  | Declaration, Declaration | Doctype, Doctype
  | ProcessingInstruction, ProcessingInstruction | Script, Script
  | Stylesheet, Stylesheet | TemplateString, TemplateString
  | RubyTextString, RubyTextString
  | RubyParenthesisString, RubyParenthesisString => true
  | _, _ => false
  end.

Inductive node : Type :=
| Text (cls : string_class) (s : string)
| Tag (name : string) (children : list node).

(** The [BeautifulSoup] object: the root tag, named [[document]]. *)
Definition soup_of (children : list node) : node := Tag "[document]" children.

(** A position in the tree: the node with its ancestors, nearest first. *)
Record element : Type := { el_node : node; el_up : list node }.

(** [e.name]: [None] for a string. *)
Definition node_name (n : node) : option string :=
  match n with
  | Tag nm _ => Some nm
  | Text _ _ => None
  end.

Definition name (e : element) : option string := node_name (el_node e).

(** [e.parent]: [None] at the root. *)
Definition parent (e : element) : option element :=
  match el_up e with
  | [] => None
  | p :: up => Some {| el_node := p; el_up := up |}
  end.

(** The strings below a node in document order, each with its chain of
    ancestors. *)
Fixpoint strings_below (up : list node) (n : node) : list element :=
  match n with
  | Text _ _ => [ {| el_node := n; el_up := up |} ]
  | Tag _ children => flat_map (strings_below (n :: up)) children
  end.

(** [soup.find_all(string=pattern)]: the strings of every class whose
    text the pattern is found in. *)
Definition find_all_string (pattern : Re.regex) (soup : node) : list element :=
  List.filter (fun e => match el_node e with
                        | Text _ s => Re.found pattern s
                        | Tag _ _ => false
                        end)
              (strings_below [] soup).

(** The string classes that count as text of a tag of the given name. *)
Definition interesting_string_types (tag_name : string) : list string_class :=
  if String.eqb tag_name "rt" then [RubyTextString]
  else if String.eqb tag_name "rp" then [RubyParenthesisString]
  else if String.eqb tag_name "style" then [Stylesheet]
  else if String.eqb tag_name "script" then [Script]
  else if String.eqb tag_name "template" then [TemplateString]
  else [NavigableString; CData].

Definition default_string_types : list string_class := [NavigableString; CData].

Fixpoint descendant_strings (n : node) : list (string_class * string) :=
  match n with
  | Text cls s => [(cls, s)]
  | Tag _ children => flat_map descendant_strings children
  end.

(** [_all_strings(strip=True)] *)
Definition all_strings_stripped (n : node) : list string :=
  let wanted types :=
    omap (fun '(cls, s) =>
            if existsb (string_class_eqb cls) types then
              let s' := Str.strip s in
              if Str.truthy s' then Some s' else None
            else None) in
  match n with
  | Tag nm children =>
      wanted (interesting_string_types nm) (flat_map descendant_strings children)
  | Text cls s => wanted default_string_types [(cls, s)]
  end.

(** [e.get_text(separator=sep, strip=True)] *)
Definition get_text (sep : string) (e : element) : string :=
  Str.join sep (all_strings_stripped (el_node e)).

End Bs4.

(** ** The signal extractor *)

Record row : Type := mk_row
  { symbol : string; change_24h : string; volume_24h : string; context : string }.

Definition in_range (lo hi : nat) (c : ascii) : bool :=
  let n := nat_of_ascii c in (lo <=? n) && (n <=? hi).

(** [[A-Z0-9_\-]] *)
Definition symbol_char (c : ascii) : bool :=
  in_range 65 90 c || in_range 48 57 c || Ascii.eqb c "_" || Ascii.eqb c "-".

(** [[\.,]] *)
Definition dot_or_comma (c : ascii) : bool := Ascii.eqb c "." || Ascii.eqb c ",".

(** [Strong\s*Buy] with [re.I] *)
Definition strong_buy_re : Re.regex :=
  Re.Seq (Re.lit_i "Strong") (Re.Seq (Re.Many Re.space 0 None) (Re.lit_i "Buy")).

(** [([A-Z0-9_\-]{2,20}\/?USDT|[A-Z0-9_\-]{2,20})] *)
Definition symbol_re : Re.regex :=
  Re.Alt
    (Re.Seq (Re.Many symbol_char 2 (Some 20))
            (Re.Seq (Re.Opt (Re.chr "/")) (Re.lit "USDT")))
    (Re.Many symbol_char 2 (Some 20)).

(** [(-?\d{1,3}(?:[\.,]\d+)?\s*%)] *)
Definition change_re : Re.regex :=
  Re.Seq (Re.Opt (Re.chr "-"))
    (Re.Seq (Re.Many Re.digit 1 (Some 3))
       (Re.Seq (Re.Opt (Re.Seq (Re.Cls dot_or_comma) (Re.Many Re.digit 1 None)))
          (Re.Seq (Re.Many Re.space 0 None) (Re.chr "%")))).

(** [\d+[\.,]?\d*\s*(?:K|M|B)?] *)
Definition volume_re : Re.regex :=
  Re.Seq (Re.Many Re.digit 1 None)
    (Re.Seq (Re.Opt (Re.Cls dot_or_comma))
       (Re.Seq (Re.Many Re.digit 0 None)
          (Re.Seq (Re.Many Re.space 0 None)
             (Re.Opt (Re.Alt (Re.chr "K") (Re.Alt (Re.chr "M") (Re.chr "B"))))))).

Definition is_container (nm : option string) : bool :=
  match nm with
  | Some n => existsb (String.eqb n) ["tr"; "div"; "li"; "section"]
  | None => false
  end.

(** The walk of at most [budget] steps towards the root: it stops at the
    first container and when the root has been left. *)
Fixpoint climb (budget : nat) (parent : option Bs4.element) : option Bs4.element :=
  match budget with
  | 0 => parent
  | S budget' =>
      match parent with
      | None => None
      | Some p =>
          if is_container (Bs4.name p) then Some p
          else climb budget' (Bs4.parent p)
      end
  end.

(** The fields read off the flattened text of the chosen ancestor. *)
Definition row_of_text (text : string) : row :=
  let m_sym := Re.search symbol_re text in
  let symbol :=
    match m_sym with
    | Some g => g
    | None => if Str.truthy text then Str.before "|" text else "unknown"
    end in
  let m_change := Re.search change_re text in
  let change := match m_change with Some g => g | None => "" end in
  let m_vol := Re.search volume_re (Str.reverse text) in
  let vols := Re.findall volume_re text in
  let volume := match last vols with Some v => v | None => "" end in
  {| symbol := symbol; change_24h := change; volume_24h := volume; context := text |}.

(** One turn of the loop over the candidates: [None] is [continue]. *)
Definition row_of_candidate (node : Bs4.element) : option row :=
  match climb 5 (Some node) with
  | None => None
  | Some parent => Some (row_of_text (Bs4.get_text "|" parent))
  end.

Definition extract_rows (soup : Bs4.node) : list row :=
  omap row_of_candidate (Bs4.find_all_string strong_buy_re soup).

(** [r.get('symbol', '') or r.get('context', '')[:30]] *)
Definition dedup_key (r : row) : string :=
  if Str.truthy (symbol r) then symbol r else Str.take 30 (context r).

(** The dictionary [seen], in insertion order. *)
Definition seen_has (k : string) (seen : list (string * row)) : bool :=
  existsb (fun kv => String.eqb k (fst kv)) seen.

Fixpoint dedup_loop (seen : list (string * row)) (results : list row)
  : list (string * row) :=
  match results with
  | [] => seen
  | r :: results' =>
      let k := dedup_key r in
      if seen_has k seen then dedup_loop seen results'
      else dedup_loop (seen ++ [(k, r)]) results'
  end.

Definition dedup (results : list row) : list row :=
  map snd (dedup_loop [] results).

Definition parse_rows_from_soup (soup : Bs4.node) : list row :=
  dedup (extract_rows soup).

(** The tree of ["<tr>BTC/USDT Strong Buy -2.5% 14.3K</tr>"] as the parser
    builds it, inside the [html] and [body] elements it supplies. *)
Definition btc_row_soup : Bs4.node :=
  Bs4.soup_of
    [Bs4.Tag "html"
       [Bs4.Tag "body"
          [Bs4.Tag "tr"
             [Bs4.Text Bs4.NavigableString "BTC/USDT Strong Buy -2.5% 14.3K"]]]].

(** ** The scan cycle *)

(** Exceptions: the instances of [Exception], which are the ones an
    [except Exception] clause handles. *)
Inductive exn : Type := Exception (what : string).

(** What a call returns to its caller. *)
Inductive outcome (A : Type) : Type :=
| Returns (a : A)
| Raises (e : exn).
Arguments Returns {A} a.
Arguments Raises {A} e.

(** [requests.Response]: the status code and the body. *)
Record response : Type := { status_code : nat; text : string }.

(** A call of [send_telegram_message] made by the notify loop, kept as a
    trace: the symbol and day of the key, the message, and the answer. *)
Record send_event : Type :=
  { ev_symbol : string; ev_day : string; ev_text : string; ev_ok : bool }.

(** The module-level state. [last_run_time] is the number [time.time()]
    gave; the program stores it and tests it against zero, nothing else.
    [sent_log] is not a variable of the program: it records the calls
    made so far. *)
Record state : Type :=
  { last_sent : gset string;
    last_run_results : list row;
    last_run_time : Z;
    sent_log : list send_event }.

Definition initial_state : state :=
  {| last_sent := ∅; last_run_results := []; last_run_time := 0%Z; sent_log := [] |}.

(** The world of one cycle: the outcome of every call that leaves the
    program. [http_post n msg] answers the [requests.post] that is made
    when [n] sends have been made before it. *)
Record world : Type :=
  { http_get : outcome response;
    parse_html : string -> outcome Bs4.node;
    utcnow_date : outcome string;
    http_post : nat -> string -> outcome response;
    clock : outcome Z }.

(** State and exceptions, as Python has them: the state changes made
    before an exception is raised stay. *)
Definition M (A : Type) : Type := state -> outcome A * state.

Definition ret {A} (a : A) : M A := fun st => (Returns a, st).

Definition bind {A B} (m : M A) (f : A -> M B) : M B :=
  fun st =>
    match m st with
    | (Returns a, st') => f a st'
    | (Raises e, st') => (Raises e, st')
    end.

Definition call {A} (o : outcome A) : M A := fun st => (o, st).

Definition get_state : M state := fun st => (Returns st, st).

Definition modify (f : state -> state) : M unit := fun st => (Returns tt, f st).

(** [try: body except Exception as e: handler(e)] *)
Definition try_except {A} (body : M A) (handler : exn -> M A) : M A :=
  fun st =>
    match body st with
    | (Returns a, st') => (Returns a, st')
    | (Raises e, st') => handler e st'
    end.

#[global] Instance M_ret : MRet M := @ret.
#[global] Instance M_bind : MBind M := fun A B f m => bind m f.

Definition nl : string := String (ascii_of_nat 10) "".

Definition TRADINGVIEW_URL : string := "https://www.tradingview.com/cex-screener/".

(** [resp.raise_for_status()]: an [HTTPError] for the 4xx and 5xx codes. *)
Definition raise_for_status (resp : response) : outcome unit :=
  if (400 <=? status_code resp) && (status_code resp <? 600)
  then Raises (Exception "HTTPError")
  else Returns tt.

Definition send_telegram_message (w : world) (text : string) : M bool :=
  try_except
    (st ← get_state;
     resp ← call (http_post w (length (sent_log st)) text);
     call (raise_for_status resp);;
     ret true)
    (fun e => ret false).

Definition lightweight_scrape (w : world) : M (list row) :=
  resp ← call (http_get w);
  call (raise_for_status resp);;
  let html := text resp in
  soup ← call (parse_html w html);
  ret (parse_rows_from_soup soup).

(** The defensive filter: [Strong Buy] is still in the context. *)
Definition strong_buy_filter (items : list row) : list row :=
  List.filter (fun it => Re.found strong_buy_re (context it)) items.

Definition notification_key (symbol now_date : string) : string :=
  symbol +:+ "|" +:+ now_date.

(** The em dash of the message is written as its three UTF-8 bytes. *)
Definition message (symbol change vol : string) : string :=
  "<b>" +:+ symbol +:+ "</b> — <i>Strong Buy</i>" +:+ nl
  +:+ "24h Change: " +:+ change +:+ nl
  +:+ "24h Volume: " +:+ vol +:+ nl
  +:+ "Source: " +:+ TRADINGVIEW_URL.

(** Assignments to the module-level variables. *)
Definition with_last_sent (ledger : gset string) (st : state) : state :=
  {| last_sent := ledger;
     last_run_results := last_run_results st;
     last_run_time := last_run_time st;
     sent_log := sent_log st |}.

Definition with_results (filtered : list row) (st : state) : state :=
  {| last_sent := last_sent st;
     last_run_results := filtered;
     last_run_time := last_run_time st;
     sent_log := sent_log st |}.

Definition with_time (t : Z) (st : state) : state :=
  {| last_sent := last_sent st;
     last_run_results := last_run_results st;
     last_run_time := t;
     sent_log := sent_log st |}.

Definition with_event (ev : send_event) (st : state) : state :=
  {| last_sent := last_sent st;
     last_run_results := last_run_results st;
     last_run_time := last_run_time st;
     sent_log := sent_log st ++ [ev] |}.

(** [last_sent.add(key)] *)
Definition mark_notified (key : string) : M unit :=
  modify (fun st => with_last_sent ({[ key ]} ∪ last_sent st) st).

Definition log_send (ev : send_event) : M unit := modify (with_event ev).

(** The body of the loop over [filtered] for one record. *)
Definition notify_one (w : world) (now_date : string) (it : row)
           (new_notified : list row) : M (list row) :=
  let symbol := symbol it in
  let key := notification_key symbol now_date in
  st ← get_state;
  if decide (key ∈ last_sent st) then ret new_notified
  else
    let change := change_24h it in
    let vol := volume_24h it in
    let msg := message symbol change vol in
    ok ← send_telegram_message w msg;
    log_send {| ev_symbol := symbol; ev_day := now_date; ev_text := msg; ev_ok := ok |};;
    if (ok : bool) then
      mark_notified key;;
      ret (new_notified ++ [it])
    else ret new_notified.

Fixpoint notify_loop (w : world) (now_date : string) (filtered : list row)
         (new_notified : list row) : M (list row) :=
  match filtered with
  | [] => ret new_notified
  | it :: filtered' =>
      new_notified' ← notify_one w now_date it new_notified;
      notify_loop w now_date filtered' new_notified'
  end.

(** [last_run_results = filtered] *)
Definition set_last_run_results (filtered : list row) : M unit :=
  modify (with_results filtered).

(** [last_run_time = t] *)
Definition set_last_run_time (t : Z) : M unit := modify (with_time t).

Definition scrape_tradingview_and_notify (w : world) : M unit :=
  try_except
    (items ← try_except (lightweight_scrape w) (fun e => ret []);
     let filtered := strong_buy_filter items in
     now_date ← call (utcnow_date w);
     new_notified ← notify_loop w now_date filtered [];
     set_last_run_results filtered;;
     t ← call (clock w);
     set_last_run_time t)
    (fun e => ret tt).

(** The state after a cycle, and after the cycles of a process in turn. *)
Definition after_cycle (w : world) (st : state) : state :=
  snd (scrape_tradingview_and_notify w st).

Definition after_cycles (ws : list world) (st : state) : state :=
  fold_left (fun st w => after_cycle w st) ws st.

(** The snapshot the status views read. *)
Definition snapshot (st : state) : Z * list row :=
  (last_run_time st, last_run_results st).

(** The status views [/] and [/results].

    [datetime.utcfromtimestamp(t).isoformat()] is modelled for clock
    values that are a whole number of seconds, as the state holds them:
    the text has then no fraction of a second. The call raises when the
    instant lies outside the years 1 to 9999. *)

(** The civil date of a day number counted from 1970-01-01, in the
    proleptic Gregorian calendar. *)
Definition civil_from_days (days : Z) : Z * Z * Z :=
  let z := (days + 719468)%Z in
  let era := (z / 146097)%Z in
  let doe := (z - era * 146097)%Z in
  let yoe := ((doe - doe / 1460 + doe / 36524 - doe / 146096) / 365)%Z in
  let doy := (doe - (365 * yoe + yoe / 4 - yoe / 100))%Z in
  let mp := ((5 * doy + 2) / 153)%Z in
  let d := (doy - (153 * mp + 2) / 5 + 1)%Z in
  let m := (if mp <? 10 then mp + 3 else mp - 9)%Z in
  let y := (yoe + era * 400 + (if m <=? 2 then 1 else 0))%Z in
  (y, m, d).

(** The last [width] decimal digits of [n]: [%0<width>d] for a number
    that has no more digits. *)
Fixpoint zero_padded (width : nat) (n : Z) : string :=
  match width with
  | 0 => ""
  | S width' =>
      zero_padded width' (n / 10)
      +:+ String (ascii_of_nat (48 + Z.to_nat (n mod 10))) ""
  end.

Definition timestamp_in_range (t : Z) : bool :=
  ((-62135596800 <=? t) && (t <? 253402300800))%Z.

(** [datetime.utcfromtimestamp(t).isoformat()] *)
Definition utcfromtimestamp_isoformat (t : Z) : outcome string :=
  if timestamp_in_range t then
    let '(y, m, d) := civil_from_days (t / 86400) in
    let secs := (t mod 86400)%Z in
    Returns (zero_padded 4 y +:+ "-" +:+ zero_padded 2 m +:+ "-"
             +:+ zero_padded 2 d +:+ "T"
             +:+ zero_padded 2 (secs / 3600) +:+ ":"
             +:+ zero_padded 2 (secs mod 3600 / 60) +:+ ":"
             +:+ zero_padded 2 (secs mod 60))
  else Raises (Exception "ValueError").

(** [datetime.utcfromtimestamp(last_run_time).isoformat() + 'Z' if
    last_run_time else None] *)
Definition last_run_of (t : Z) : outcome (option string) :=
  if (t =? 0)%Z then Returns None
  else
    match utcfromtimestamp_isoformat t with
    | Returns iso => Returns (Some (iso +:+ "Z"))
    | Raises e => Raises e
    end.


(** [results()]: last run and the rows. *)
Definition results (st : state) : outcome (option string * list row) :=
  match last_run_of (last_run_time st) with
  | Returns lr => Returns (lr, last_run_results st)
  | Raises e => Raises e
  end.

(** What [lightweight_scrape] returns in a world; it reads no state. *)
Definition scrape_outcome (w : world) : outcome (list row) :=
  match http_get w with
  | Returns resp =>
      match raise_for_status resp with
      | Returns _ =>
          match parse_html w (text resp) with
          | Returns soup => Returns (parse_rows_from_soup soup)
          | Raises e => Raises e
          end
      | Raises e => Raises e
      end
  | Raises e => Raises e
  end.

(** What the fetch, extract and filter steps of a cycle yield. *)
Definition filtered_of (w : world) : list row :=
  strong_buy_filter
    match scrape_outcome w with
    | Returns items => items
    | Raises _ => []
    end.

(** ** Definitions used to state the properties *)

(** Whether the transport call of the [n]-th send succeeds. *)
Definition post_ok (w : world) (n : nat) (msg : string) : bool :=
  match http_post w n msg with
  | Returns resp =>
      match raise_for_status resp with
      | Returns _ => true
      | Raises _ => false
      end
  | Raises _ => false
  end.

Definition event_key (ev : send_event) : string :=
  notification_key (ev_symbol ev) (ev_day ev).

(** The event the notify loop records for a record on a day. *)
Definition send_event_of (it : row) (now_date : string) (ok : bool) : send_event :=
  {| ev_symbol := symbol it; ev_day := now_date;
     ev_text := message (symbol it) (change_24h it) (volume_24h it);
     ev_ok := ok |}.

(** The ledger holds the key of every successful send of the trace, and
    no send of the trace repeats the key of an earlier successful one. *)
Definition ledger_covers (st : state) : Prop :=
  (forall ev, ev ∈ sent_log st -> ev_ok ev = true -> event_key ev ∈ last_sent st)
  /\ (forall i j ev ev',
        i < j -> sent_log st !! i = Some ev -> sent_log st !! j = Some ev' ->
        ev_ok ev = true -> event_key ev' <> event_key ev).

(** The send calls a cycle adds to the trace. *)
Definition cycle_events (w : world) (st : state) : list send_event :=
  drop (length (sent_log st)) (sent_log (after_cycle w st)).

(** Every entry of the dictionary sits under the key of its record. *)
Definition keyed (seen : list (string * row)) : Prop :=
  Forall (fun kv => fst kv = dedup_key (snd kv)) seen.

Definition not_container (n : Bs4.node) : Prop :=
  is_container (Bs4.node_name n) = false.

(** A string of the tree at the end of the given chain of ancestors. *)
Definition string_at (cls : Bs4.string_class) (s : string) (up : list Bs4.node)
  : Bs4.element :=
  {| Bs4.el_node := Bs4.Text cls s; Bs4.el_up := up |}.

(** The [i]-th ancestor of an element, counted from 0 at its parent. *)
Definition ancestor (e : Bs4.element) (i : nat) : option Bs4.element :=
  (fun p => {| Bs4.el_node := p; Bs4.el_up := drop (S i) (Bs4.el_up e) |})
    <$> (Bs4.el_up e !! i).

(** [w] occurs in [s] after [n] characters. *)
Definition occurs_at (n : nat) (w s : string) : Prop :=
  exists pre post, s = pre +:+ w +:+ post /\ String.length pre = n.

(** [w] is the first match of [r] in [s]: a word of the pattern that
    occurs in [s], no word of the pattern occurring further left. *)
Definition first_match (r : Re.regex) (s w : string) : Prop :=
  Re.matches r w /\
  exists n, occurs_at n w s /\
    forall n' w', n' < n -> occurs_at n' w' s -> ~ Re.matches r w'.

Definition no_match (r : Re.regex) (s : string) : Prop :=
  forall n w, occurs_at n w s -> ~ Re.matches r w.

Definition not_percent (c : ascii) : bool := negb (Ascii.eqb c "%").

(** The change field as the specification words it: an optional minus
    sign, a number with an optional decimal part after a dot or a comma,
    and a percent sign right behind it. *)
Definition change_re_as_specified : Re.regex :=
  Re.Seq (Re.Opt (Re.chr "-"))
    (Re.Seq (Re.Many Re.digit 1 None)
       (Re.Seq (Re.Opt (Re.Seq (Re.Cls dot_or_comma) (Re.Many Re.digit 1 None)))
          (Re.chr "%"))).

Definition change_24h_as_specified (text : string) : string :=
  match Re.search change_re_as_specified text with
  | Some g => g
  | None => ""
  end.

(** *** Example trees and worlds *)

(** The same markup as the tree a parser builds that adds no elements. *)
Definition btc_row_soup_bare : Bs4.node :=
  Bs4.soup_of
    [Bs4.Tag "tr" [Bs4.Text Bs4.NavigableString "BTC/USDT Strong Buy -2.5% 14.3K"]].

Definition btc_row : row :=
  {| symbol := "BTC/USDT"; change_24h := "-2.5%"; volume_24h := "14.3K";
     context := "BTC/USDT Strong Buy -2.5% 14.3K" |}.

(** ["<p><b>Strong Buy</b></p>"]: a marker with no container above it. *)
Definition bold_marker_soup : Bs4.node :=
  Bs4.soup_of
    [Bs4.Tag "html"
       [Bs4.Tag "body"
          [Bs4.Tag "p"
             [Bs4.Tag "b" [Bs4.Text Bs4.NavigableString "Strong Buy"]]]]].

(** ["<b>Strong Buy</b>"] in a tree without further elements: the walk
    leaves the root. *)
Definition shallow_marker_soup : Bs4.node :=
  Bs4.soup_of [Bs4.Tag "b" [Bs4.Text Bs4.NavigableString "Strong Buy"]].

(** ["<div>| strong buy a</div><div>| strong buy b</div>"] *)
Definition pipe_rows_soup : Bs4.node :=
  Bs4.soup_of
    [Bs4.Tag "html"
       [Bs4.Tag "body"
          [Bs4.Tag "div" [Bs4.Text Bs4.NavigableString "| strong buy a"];
           Bs4.Tag "div" [Bs4.Text Bs4.NavigableString "| strong buy b"]]]].

(** ["<tr>XRPUSDT Strong Buy 1.2% 3M</tr>"] *)
Definition xrp_row_soup : Bs4.node :=
  Bs4.soup_of
    [Bs4.Tag "html"
       [Bs4.Tag "body"
          [Bs4.Tag "tr"
             [Bs4.Text Bs4.NavigableString "XRPUSDT Strong Buy 1.2% 3M"]]]].

Definition xrp_row : row :=
  {| symbol := "XRPUSDT"; change_24h := "1.2%"; volume_24h := "3M";
     context := "XRPUSDT Strong Buy 1.2% 3M" |}.

(** ["<tr>ETHUSDT Strong Buy 0.4% 9M</tr><tr>XRPUSDT Strong Buy 1.2% 3M</tr>"] *)
Definition eth_row_soup : Bs4.node :=
  Bs4.soup_of
    [Bs4.Tag "html"
       [Bs4.Tag "body"
          [Bs4.Tag "tr"
             [Bs4.Text Bs4.NavigableString "ETHUSDT Strong Buy 0.4% 9M"];
           Bs4.Tag "tr"
             [Bs4.Text Bs4.NavigableString "XRPUSDT Strong Buy 1.2% 3M"]]]].

Definition page (status : nat) : response :=
  {| status_code := status; text := "<html></html>" |}.

(** A world in which every call answers: the page parses to [soup], the
    day is [day], the transport accepts every message when [sends] is
    true and answers 502 otherwise, and the clock shows [t]. *)
Definition world_of (soup : Bs4.node) (day : string) (sends : bool) (t : Z) : world :=
  {| http_get := Returns (page 200);
     parse_html := fun _ => Returns soup;
     utcnow_date := Returns day;
     http_post := fun _ _ => Returns (page (if sends then 200 else 502));
     clock := Returns t |}.

(** The request for the page times out. *)
Definition world_timeout : world :=
  {| http_get := Raises (Exception "ReadTimeout");
     parse_html := fun _ => Returns btc_row_soup;
     utcnow_date := Returns "2024-05-01";
     http_post := fun _ _ => Returns (page 200);
     clock := Returns 1714521600%Z |}.

(** The page is fetched and read, and the call that gives the day raises. *)
Definition world_date_fails : world :=
  {| http_get := Returns (page 200);
     parse_html := fun _ => Returns btc_row_soup;
     utcnow_date := Raises (Exception "OSError");
     http_post := fun _ _ => Returns (page 200);
     clock := Returns 1714521600%Z |}.

(** A state left by an earlier cycle. *)
Definition earlier_state : state :=
  {| last_sent := {[ "ETHUSDT|2024-04-30" ]};
     last_run_results := [xrp_row];
     last_run_time := 1714435200%Z;
     sent_log := [] |}.

(** *** Characters of the words of a pattern *)

(** The 256 characters. *)
Definition all_ascii : list ascii := List.map ascii_of_nat (seq 0 256).

(** Every character of class [p] satisfies [q]. *)
Definition class_sub (p q : ascii -> bool) : bool :=
  forallb (fun c => implb (p c) (q c)) all_ascii.

(** Every character class of the pattern lies within [q]. *)
Fixpoint regex_chars (q : ascii -> bool) (r : Re.regex) : bool :=
  match r with
  | Re.Eps => true
  | Re.Cls p => class_sub p q
  | Re.Seq r1 r2 | Re.Alt r1 r2 => regex_chars q r1 && regex_chars q r2
  | Re.Opt r1 => regex_chars q r1
  | Re.Many p _ _ => class_sub p q
  end.

Definition no_pipe (c : ascii) : bool := negb (Ascii.eqb c "|").

Definition not_digit (c : ascii) : bool := negb (Re.digit c).

(** *** Visible strings *)

(** A string of class [cls] counts as text of the element [p]. *)
Definition visible_in (cls : Bs4.string_class) (p : Bs4.element) : bool :=
  match Bs4.el_node p with
  | Bs4.Tag nm _ =>
      existsb (Bs4.string_class_eqb cls) (Bs4.interesting_string_types nm)
  | Bs4.Text _ _ => false
  end.

Definition not_space (c : ascii) : bool := negb (Str.isspace c).

(** ["<div><p>BNBUSDT</p><p><b> Strong Buy </b></p></div>"] *)
Definition bnb_soup : Bs4.node :=
  Bs4.soup_of
    [Bs4.Tag "html"
       [Bs4.Tag "body"
          [Bs4.Tag "div"
             [Bs4.Tag "p" [Bs4.Text Bs4.NavigableString "BNBUSDT"];
              Bs4.Tag "p"
                [Bs4.Tag "b" [Bs4.Text Bs4.NavigableString " Strong Buy "]]]]]].

(** Every word of the pattern has a character. *)
Fixpoint nonempty (r : Re.regex) : bool :=
  match r with
  | Re.Eps | Re.Opt _ => false
  | Re.Cls _ => true
  | Re.Seq r1 r2 => nonempty r1 || nonempty r2
  | Re.Alt r1 r2 => nonempty r1 && nonempty r2
  | Re.Many _ lo _ => negb (lo =? 0)
  end.

(** The first character of every word of the pattern satisfies [q]. *)
Fixpoint head_in (q : ascii -> bool) (r : Re.regex) : bool :=
  match r with
  | Re.Eps => true
  | Re.Cls p | Re.Many p _ _ => class_sub p q
  | Re.Seq r1 r2 => head_in q r1 && (nonempty r1 || head_in q r2)
  | Re.Alt r1 r2 => head_in q r1 && head_in q r2
  | Re.Opt r1 => head_in q r1
  end.

(** The last character of every word of the pattern satisfies [q]. *)
Fixpoint last_in (q : ascii -> bool) (r : Re.regex) : bool :=
  match r with
  | Re.Eps => true
  | Re.Cls p | Re.Many p _ _ => class_sub p q
  | Re.Seq r1 r2 => last_in q r2 && (nonempty r2 || last_in q r1)
  | Re.Alt r1 r2 => last_in q r1 && last_in q r2
  | Re.Opt r1 => last_in q r1
  end.

(** The first marker of [bnb_soup] and the element its walk ends at. *)
Definition bnb_marker : Bs4.element :=
  match Bs4.find_all_string strong_buy_re bnb_soup with
  | e :: _ => e
  | [] => {| Bs4.el_node := bnb_soup; Bs4.el_up := [] |}
  end.

Definition bnb_container : Bs4.element :=
  match climb 5 (Some bnb_marker) with
  | Some p => p
  | None => bnb_marker
  end.

(** *** The states a status read can meet during a cycle *)

(** Lines 121-144: the cycle up to the end of the notify loop; it yields
    [filtered]. *)
Definition cycle_to_notify (w : world) : M (list row) :=
  items ← try_except (lightweight_scrape w) (fun e => ret []);
  let filtered := strong_buy_filter items in
  now_date ← call (utcnow_date w);
  new_notified ← notify_loop w now_date filtered [];
  ret filtered.

(** Line 147: [last_run_time = time.time()]. *)
Definition store_time (w : world) : M unit :=
  t ← call (clock w);
  set_last_run_time t.

(** The states of the program variables at the statement boundaries
    around the update of the snapshot: before the cycle, after the notify
    loop, after line 146 and, when the clock can be read, after line 147.
    The notify loop itself writes neither variable of the snapshot. *)
Definition states_during (w : world) (st : state) : list state :=
  st ::
  match cycle_to_notify w st with
  | (Returns filtered, st1) =>
      let st2 := snd (set_last_run_results filtered st1) in
      st1 :: st2 ::
      match store_time w st2 with
      | (Returns _, st3) => [st3]
      | (Raises _, _) => []
      end
  | (Raises _, st1) => [st1]
  end.

(** The page yields the BTC row, every send succeeds. *)
Definition world_btc : world :=
  world_of btc_row_soup "2024-05-01" true 1714521600%Z.

(** *** The match the symbol pattern gives *)

(** The two alternatives of the symbol pattern. *)
Definition symbol_re_usdt : Re.regex :=
  Re.Seq (Re.Many symbol_char 2 (Some 20))
         (Re.Seq (Re.Opt (Re.chr "/")) (Re.lit "USDT")).

Definition symbol_re_token : Re.regex := Re.Many symbol_char 2 (Some 20).

(** [w] is the longest word of [r] that [s] begins with. *)
Definition longest_prefix (r : Re.regex) (s w : string) : Prop :=
  Re.matches r w
  /\ (exists post, s = w +:+ post)
  /\ forall w' post', Re.matches r w' -> s = w' +:+ post' ->
                      String.length w' <= String.length w.

(** [w] is the match of the symbol pattern in [text]: at the leftmost
    place where a word of the pattern begins, the longest word of the
    first alternative, and the longest word of the second alternative
    when no word of the first begins there. *)
Definition symbol_match (text w : string) : Prop :=
  exists pre s,
    text = pre +:+ s
    /\ (forall n' w', n' < String.length pre -> occurs_at n' w' text ->
                      ~ Re.matches symbol_re w')
    /\ (longest_prefix symbol_re_usdt s w
        \/ ((forall w' post', Re.matches symbol_re_usdt w' ->
                              s <> w' +:+ post')
            /\ longest_prefix symbol_re_token s w)).

(** * Properties *)

(** ** Strings *)

#[local] Arguments String.append !_ _ / : simpl nomatch.

Lemma str_app_nil_r (s : string) : s +:+ "" = s.
Proof. induction s as [|c s IH]; simpl; [reflexivity | now rewrite IH]. Qed.

Lemma str_app_assoc (a b c : string) : (a +:+ b) +:+ c = a +:+ b +:+ c.
Proof. induction a as [|x a IH]; simpl; [reflexivity | now rewrite IH]. Qed.

Lemma str_length_app (a b : string) :
  String.length (a +:+ b) = String.length a + String.length b.
Proof. induction a as [|x a IH]; simpl; [reflexivity | now rewrite IH]. Qed.

Lemma take_length_app (w rest : string) :
  Str.take (String.length w) (w +:+ rest) = w.
Proof.
  unfold Str.take. induction w as [|c w IH]; simpl.
  - now destruct rest.
  - now rewrite IH.
Qed.

Lemma take_matched (w rest : string) :
  Str.take (String.length (w +:+ rest) - String.length rest) (w +:+ rest) = w.
Proof.
  rewrite str_length_app.
  replace (String.length w + String.length rest - String.length rest)
    with (String.length w) by lia.
  apply take_length_app.
Qed.

Lemma length_zero (s : string) : String.length s = 0 -> s = "".
Proof. now destruct s. Qed.

(** ** The matcher finds exactly the words of the pattern's language *)

Section MatcherFacts.
Context {A : Type}.
Implicit Types (k : string -> option A) (s w : string).

Lemma many_sound p : forall s lo hi k x,
  Re.many p lo hi s k = Some x ->
  exists w s', s = w +:+ s' /\ Re.all_chars p w = true
               /\ lo <= String.length w /\ Re.within hi (String.length w)
               /\ k s' = Some x.
Proof.
  assert (Hstop : forall s lo hi k x,
    match lo with 0 => k s | S _ => None end = Some x ->
    exists w s', s = w +:+ s' /\ Re.all_chars p w = true
                 /\ lo <= String.length w /\ Re.within hi (String.length w)
                 /\ k s' = Some x).
  { intros s lo hi k x H. destruct lo; [|discriminate].
    exists "", s. repeat split; simpl; auto. destruct hi; simpl; lia. }
  induction s as [|c s IH]; intros lo hi k x H; simpl in H.
  - now apply Hstop.
  - destruct (p c && Re.has_room hi) eqn:Hc; [|now apply Hstop].
    destruct (Re.many p (pred lo) (Re.less_room hi) s k) eqn:Hm;
      [|now apply Hstop].
    injection H as ->. apply andb_prop in Hc as [Hp Hr].
    destruct (IH _ _ _ _ Hm) as (w & s' & -> & Hall & Hlo & Hhi & Hk).
    exists (String c w), s'. simpl. rewrite Hp, Hall.
    repeat split; auto; [lia|].
    destruct hi as [[|h]|]; simpl in *; try discriminate; auto; lia.
Qed.

Lemma many_complete p : forall s lo hi k,
  Re.many p lo hi s k = None ->
  forall w s', s = w +:+ s' -> Re.all_chars p w = true ->
               lo <= String.length w -> Re.within hi (String.length w) ->
               k s' = None.
Proof.
  assert (Hstop : forall s lo k,
    match lo with 0 => k s | S _ => None end = None ->
    lo <= 0 -> k s = None).
  { intros s lo k H Hlo. now destruct lo; [|lia]. }
  induction s as [|c s IH]; intros lo hi k H w s' Hs Hall Hlo Hhi.
  - destruct w; [|discriminate]. simpl in Hs. subst s'.
    now apply (Hstop "" lo).
  - destruct w as [|c' w]; simpl in Hs.
    + subst s'. simpl in H. apply (Hstop _ lo); [|assumption].
      destruct (p c && Re.has_room hi); [|assumption].
      now destruct (Re.many p (pred lo) (Re.less_room hi) s k).
    + injection Hs as <- ->. simpl in Hall, Hlo, Hhi, H.
      apply andb_prop in Hall as [Hp Hall]. rewrite Hp in H.
      assert (Hr : Re.has_room hi = true).
      { destruct hi as [[|h]|]; simpl in *; auto; lia. }
      rewrite Hr in H. simpl in H.
      destruct (Re.many p (pred lo) (Re.less_room hi) (w +:+ s') k) eqn:Hm;
        [discriminate|].
      apply (IH _ _ _ Hm w s'); auto; [lia|].
      destruct hi as [h|]; simpl in *; auto; lia.
Qed.

Lemma go_sound r : forall s k x,
  Re.go r s k = Some x ->
  exists w s', s = w +:+ s' /\ Re.matches r w /\ k s' = Some x.
Proof.
  induction r as [|p|r1 IH1 r2 IH2|r1 IH1 r2 IH2|r IH|p lo hi];
    intros s k x H; simpl in H.
  - exists "", s. repeat split; auto. constructor.
  - destruct s as [|c s]; [discriminate|].
    destruct (p c) eqn:Hp; [|discriminate].
    exists (String c ""), s. repeat split; auto. now constructor.
  - destruct (IH1 _ _ _ H) as (w1 & s1 & -> & Hm1 & H1).
    destruct (IH2 _ _ _ H1) as (w2 & s2 & -> & Hm2 & H2).
    exists (w1 +:+ w2), s2. rewrite str_app_assoc.
    repeat split; auto. now constructor.
  - destruct (Re.go r1 s k) eqn:H1.
    + injection H as ->.
      destruct (IH1 _ _ _ H1) as (w & s' & -> & Hm & Hk).
      exists w, s'. repeat split; auto. now apply Re.M_alt_l.
    + destruct (IH2 _ _ _ H) as (w & s' & -> & Hm & Hk).
      exists w, s'. repeat split; auto. now apply Re.M_alt_r.
  - destruct (Re.go r s k) eqn:H1.
    + injection H as ->.
      destruct (IH _ _ _ H1) as (w & s' & -> & Hm & Hk).
      exists w, s'. repeat split; auto. now apply Re.M_opt_some.
    + exists "", s. repeat split; auto. apply Re.M_opt_none.
  - destruct (many_sound _ _ _ _ _ _ H) as (w & s' & -> & Ha & Hl & Hh & Hk).
    exists w, s'. repeat split; auto. now constructor.
Qed.

Lemma go_complete r : forall s k,
  Re.go r s k = None ->
  forall w s', s = w +:+ s' -> Re.matches r w -> k s' = None.
Proof.
  induction r as [|p|r1 IH1 r2 IH2|r1 IH1 r2 IH2|r IH|p lo hi];
    intros s k H w s' -> Hm; simpl in H.
  - inversion Hm; subst. assumption.
  - inversion Hm as [|p' c Hp| | | | | |]; subst. simpl in H.
    now rewrite Hp in H.
  - inversion Hm as [| |ra rb w1 w2 Hm1 Hm2| | | | |]; subst.
    rewrite str_app_assoc in H.
    pose proof (IH1 _ _ H w1 (w2 +:+ s') eq_refl Hm1) as H'.
    now apply (IH2 _ _ H' w2 s').
  - destruct (Re.go r1 (w +:+ s') k) eqn:E1; [discriminate|].
    inversion Hm as [| | |ra rb w' Hm1|ra rb w' Hm2| | |]; subst.
    + now apply (IH1 _ _ E1 w s').
    + now apply (IH2 _ _ H w s').
  - destruct (Re.go r (w +:+ s') k) eqn:E1; [discriminate|].
    inversion Hm as [| | | | |ra w' Hm1|ra|]; subst.
    + now apply (IH _ _ E1 w s').
    + assumption.
  - inversion Hm as [| | | | | | |p' lo' hi' w' Ha Hl Hh]; subst.
    now apply (many_complete _ _ _ _ _ H w s').
Qed.
End MatcherFacts.

(** ** [re.search] returns the first match *)

Lemma go_here_some r s rest :
  Re.go r s (fun x => Some x) = Some rest ->
  exists w, s = w +:+ rest /\ Re.matches r w
            /\ Str.take (String.length s - String.length rest) s = w.
Proof.
  intros H. destruct (go_sound _ _ _ _ H) as (w & s' & -> & Hm & [= ->]).
  exists w. repeat split; auto. apply take_matched.
Qed.

Lemma go_here_none r s :
  Re.go r s (fun x => Some x) = None ->
  forall w, occurs_at 0 w s -> ~ Re.matches r w.
Proof.
  intros H w (pre & post & -> & Hlen) Hm.
  apply length_zero in Hlen. subst pre. simpl in H.
  now pose proof (go_complete _ _ _ H w post eq_refl Hm).
Qed.

Lemma occurs_at_cons n w c s :
  occurs_at (S n) w (String c s) <-> occurs_at n w s.
Proof.
  split.
  - intros (pre & post & Hs & Hlen). destruct pre as [|c' pre]; [discriminate|].
    simpl in Hs, Hlen. injection Hs as <- ->. injection Hlen as <-.
    now exists pre, post.
  - intros (pre & post & -> & <-). now exists (String c pre), post.
Qed.

Lemma search_rest_first r : forall s w rest,
  Re.search_rest r s = Some (w, rest) -> first_match r s w.
Proof.
  assert (Hhere : forall s w rest rest0,
    Re.go r s (fun x => Some x) = Some rest0 ->
    Some (Str.take (String.length s - String.length rest0) s, rest0)
      = Some (w, rest) -> first_match r s w).
  { intros s w rest rest0 Hgo [= <- <-].
    destruct (go_here_some _ _ _ Hgo) as (w0 & Hs & Hm & ->).
    split; [assumption|]. exists 0. split; [|intros; lia].
    now exists "", rest0. }
  induction s as [|c s IH]; intros w rest H; simpl in H;
    destruct (Re.go r _ (fun x => Some x)) eqn:Hgo; eauto; [discriminate|].
  destruct (IH _ _ H) as (Hm & n & Hocc & Hleft).
  split; [assumption|]. exists (S n). split; [now apply occurs_at_cons|].
  intros [|n'] w' Hlt Hocc'.
  - now apply (go_here_none _ _ Hgo).
  - apply occurs_at_cons in Hocc'. apply (Hleft n'); [lia | assumption].
Qed.

Lemma search_rest_none r : forall s,
  Re.search_rest r s = None -> no_match r s.
Proof.
  induction s as [|c s IH]; intros H; simpl in H;
    destruct (Re.go r _ (fun x => Some x)) eqn:Hgo; try discriminate;
    intros [|n] w Hocc.
  - now apply (go_here_none _ _ Hgo).
  - destruct Hocc as (pre & post & Hs & Hlen). destruct pre; discriminate.
  - now apply (go_here_none _ _ Hgo).
  - apply occurs_at_cons in Hocc. now apply (IH H n).
Qed.

Lemma search_first r s w : Re.search r s = Some w -> first_match r s w.
Proof.
  unfold Re.search. destruct (Re.search_rest r s) as [[w' rest]|] eqn:H;
    simpl; [|discriminate].
  intros [= <-]. eapply search_rest_first, H.
Qed.

Lemma search_none r s : Re.search r s = None -> no_match r s.
Proof.
  unfold Re.search. destruct (Re.search_rest r s) as [[w' rest]|] eqn:H;
    simpl; [discriminate|].
  intros _. now apply search_rest_none.
Qed.

Lemma first_match_not_no_match r s w : first_match r s w -> ~ no_match r s.
Proof. intros (Hm & n & Hocc & _) Hno. exact (Hno n w Hocc Hm). Qed.

(** ** Deduplication *)

Lemma seen_has_spec k seen : seen_has k seen = true <-> k ∈ map fst seen.
Proof.
  unfold seen_has. induction seen as [|[k' r] seen IH]; simpl.
  - split; [discriminate | intros H; inversion H].
  - rewrite orb_true_iff, IH, elem_of_cons, String.eqb_eq. tauto.
Qed.

Lemma seen_has_false k seen : seen_has k seen = false <-> k ∉ map fst seen.
Proof.
  rewrite <- seen_has_spec. destruct (seen_has k seen); split; congruence.
Qed.

Lemma dedup_loop_keyed results : forall seen,
  keyed seen -> keyed (dedup_loop seen results).
Proof.
  induction results as [|r results IH]; intros seen Hk; simpl; [assumption|].
  destruct (seen_has (dedup_key r) seen); apply IH; [assumption|].
  apply Forall_app. split; [assumption|]. now repeat constructor.
Qed.

Lemma dedup_loop_NoDup results : forall seen,
  NoDup (map fst seen) -> NoDup (map fst (dedup_loop seen results)).
Proof.
  induction results as [|r results IH]; intros seen Hnd; simpl; [assumption|].
  destruct (seen_has (dedup_key r) seen) eqn:Hs; apply IH; [assumption|].
  apply seen_has_false in Hs. rewrite map_app. simpl.
  apply NoDup_app. repeat split; [assumption| |apply NoDup_singleton].
  intros k Hin Hk. apply list_elem_of_singleton in Hk. now subst k.
Qed.

(** The loop only adds entries behind the ones it starts from; the added
    records are taken from the input in its order, every key of the input
    ends up in the dictionary, and an added record is the first of the
    input with its key. *)
Lemma dedup_loop_tail results : forall seen,
  exists tail,
    dedup_loop seen results = seen ++ tail
    /\ sublist (map snd tail) results
    /\ (forall r, r ∈ results -> dedup_key r ∈ map fst (seen ++ tail))
    /\ (forall k r', (k, r') ∈ tail ->
          (k ∉ map fst seen)
          /\ exists l1 l2, results = l1 ++ r' :: l2
                           /\ forall x, x ∈ l1 -> dedup_key x <> k).
Proof.
  induction results as [|r results IH]; intros seen; simpl.
  - exists []. rewrite app_nil_r. repeat split.
    + constructor.
    + intros r Hr. inversion Hr.
    + inversion H.
    + inversion H.
  - destruct (seen_has (dedup_key r) seen) eqn:Hs.
    + apply seen_has_spec in Hs.
      destruct (IH seen) as (tail & Heq & Hsub & Hall & Hfirst).
      exists tail. split; [assumption|]. split; [now apply sublist_cons|].
      split.
      * intros x Hx. apply elem_of_cons in Hx as [->|Hx]; [|now apply Hall].
        rewrite map_app. apply elem_of_app. now left.
      * intros k r' Hin. destruct (Hfirst k r' Hin) as (Hk & l1 & l2 & -> & Hl1).
        split; [assumption|]. exists (r :: l1), l2. split; [reflexivity|].
        intros x Hx. apply elem_of_cons in Hx as [->|Hx]; [|now apply Hl1].
        intros <-. contradiction.
    + apply seen_has_false in Hs.
      destruct (IH (seen ++ [(dedup_key r, r)]))
        as (tail & Heq & Hsub & Hall & Hfirst).
      exists ((dedup_key r, r) :: tail). rewrite Heq, <- app_assoc. simpl.
      split; [reflexivity|]. split; [now apply sublist_skip|]. split.
      * intros x Hx. rewrite <- app_assoc in Hall. simpl in Hall.
        apply elem_of_cons in Hx as [->|Hx]; [|now apply Hall].
        rewrite map_app. apply elem_of_app. right. simpl. apply elem_of_cons.
        now left.
      * intros k r' Hin. apply elem_of_cons in Hin as [[= -> ->]|Hin].
        -- split; [assumption|]. exists [], results. split; [reflexivity|].
           intros x Hx. inversion Hx.
        -- destruct (Hfirst k r' Hin) as (Hk & l1 & l2 & -> & Hl1).
           rewrite map_app, elem_of_app in Hk. simpl in Hk.
           split; [tauto|]. exists (r :: l1), l2. split; [reflexivity|].
           intros x Hx. apply elem_of_cons in Hx as [->|Hx]; [|now apply Hl1].
           intros <-. apply Hk. right. apply elem_of_cons. now left.
Qed.

Lemma keyed_map_key seen : keyed seen -> map dedup_key (map snd seen) = map fst seen.
Proof.
  induction 1 as [|[k r] seen Hk _ IH]; simpl in *; [reflexivity|].
  now rewrite IH, Hk.
Qed.

Lemma dedup_In results r : r ∈ dedup results -> r ∈ results.
Proof.
  unfold dedup. destruct (dedup_loop_tail results []) as (tail & -> & Hsub & _).
  simpl. intros Hr. eapply elem_of_sublist; eassumption.
Qed.

(** ** The extractor *)

Lemma extract_rows_shape soup r :
  r ∈ extract_rows soup -> exists text, r = row_of_text text.
Proof.
  unfold extract_rows. rewrite list_elem_of_omap.
  intros (e & _ & He). unfold row_of_candidate in He.
  destruct (climb 5 (Some e)); [|discriminate].
  injection He as <-. eauto.
Qed.

Lemma parse_rows_shape soup r :
  r ∈ parse_rows_from_soup soup -> r = row_of_text (context r).
Proof.
  intros Hr. apply dedup_In, extract_rows_shape in Hr as [text ->].
  reflexivity.
Qed.

(** C5. In the rows an extraction pass returns no dedup key occurs twice;
    the rows are taken from the rows found for the markers without
    changing their order; every key found is kept; and the row kept for a
    key is the first one found with that key. *)
Theorem dedup_first_seen (soup : Bs4.node) :
  let found := extract_rows soup in
  let out := parse_rows_from_soup soup in
  NoDup (map dedup_key out)
  /\ sublist out found
  /\ (forall r, r ∈ found -> exists r', r' ∈ out /\ dedup_key r' = dedup_key r)
  /\ (forall r', r' ∈ out ->
        exists l1 l2, found = l1 ++ r' :: l2
                      /\ forall x, x ∈ l1 -> dedup_key x <> dedup_key r').
Proof.
  intros found out. unfold out, parse_rows_from_soup, dedup. fold found.
  pose proof (dedup_loop_keyed found [] (Forall_nil_2 _)) as Hkeyed.
  pose proof (dedup_loop_NoDup found [] (NoDup_nil_2)) as Hnd.
  destruct (dedup_loop_tail found []) as (tail & Heq & Hsub & Hall & Hfirst).
  simpl in Heq, Hall. rewrite Heq in *. clear Heq.
  split; [now rewrite keyed_map_key|]. split; [assumption|]. split.
  - intros r Hr. apply Hall, list_elem_of_fmap in Hr as ([k r'] & -> & Hin).
    exists r'. split.
    + apply list_elem_of_fmap. now exists (k, r').
    + unfold keyed in Hkeyed. rewrite Forall_forall in Hkeyed.
      symmetry. exact (Hkeyed _ Hin).
  - intros r' Hr'. apply list_elem_of_fmap in Hr' as ([k r''] & -> & Hin).
    unfold keyed in Hkeyed. rewrite Forall_forall in Hkeyed.
    pose proof (Hkeyed _ Hin) as Hk. simpl in Hk. subst k.
    destruct (Hfirst _ _ Hin) as (_ & l1 & l2 & Hsplit & Hl1). eauto.
Qed.

(** *** A word of the change pattern ends at its only percent sign *)

Lemma all_chars_app p a b :
  Re.all_chars p (a +:+ b) = Re.all_chars p a && Re.all_chars p b.
Proof.
  induction a as [|c a IH]; simpl; [reflexivity|].
  now rewrite IH, andb_assoc.
Qed.

Lemma all_chars_impl (p q : ascii -> bool) s :
  (forall c, p c = true -> q c = true) ->
  Re.all_chars p s = true -> Re.all_chars q s = true.
Proof.
  intros Hpq. induction s as [|c s IH]; simpl; [reflexivity|].
  intros H. apply andb_prop in H as [Hc Hs]. now rewrite (Hpq _ Hc), IH.
Qed.

Lemma not_percent_of (p : ascii -> bool) :
  p "%"%char = false -> forall c, p c = true -> not_percent c = true.
Proof.
  intros Hp c Hc. unfold not_percent.
  destruct (Ascii.eqb_spec c "%") as [->|_]; [congruence | reflexivity].
Qed.

Lemma change_word_shape w :
  Re.matches change_re w ->
  exists b, w = b +:+ "%" /\ Re.all_chars not_percent b = true.
Proof.
  unfold change_re. intros H.
  inversion H as [| |? ? sign w1 Hsign H1| | | | |]; subst. clear H.
  inversion H1 as [| |? ? int w2 Hint H2| | | | |]; subst. clear H1.
  inversion H2 as [| |? ? frac w3 Hfrac H3| | | | |]; subst. clear H2.
  inversion H3 as [| |? ? sp pc Hsp Hpc| | | | |]; subst. clear H3.
  inversion Hpc as [|? c Hc| | | | | |]; subst. clear Hpc.
  apply Ascii.eqb_eq in Hc. subst c.
  exists (sign +:+ int +:+ frac +:+ sp).
  split; [now rewrite !str_app_assoc|].
  rewrite !all_chars_app, !andb_true_iff. repeat split.
  - inversion Hsign as [| | | | |? ? Hm|?|]; subst; [|reflexivity].
    inversion Hm as [|? c Hc| | | | | |]; subst.
    apply Ascii.eqb_eq in Hc. now subst c.
  - inversion Hint; subst.
    eapply all_chars_impl; [apply (not_percent_of Re.digit eq_refl)|assumption].
  - inversion Hfrac as [| | | | |? ? Hm|?|]; subst; [|reflexivity].
    inversion Hm as [| |? ? sep ds Hsep Hds| | | | |]; subst.
    inversion Hsep as [|? c Hc| | | | | |]; subst.
    inversion Hds; subst. simpl.
    rewrite (not_percent_of dot_or_comma eq_refl c Hc). simpl.
    eapply all_chars_impl; [apply (not_percent_of Re.digit eq_refl)|assumption].
  - inversion Hsp; subst.
    eapply all_chars_impl; [apply (not_percent_of Re.space eq_refl)|assumption].
Qed.

Lemma app_same_length a : forall a' x x',
  a +:+ x = a' +:+ x' -> String.length a = String.length a' ->
  a = a' /\ x = x'.
Proof.
  induction a as [|c a IH]; intros [|c' a'] x x' H Hlen;
    simpl in *; try discriminate; [now split|].
  injection H as -> H. injection Hlen as Hlen.
  destruct (IH _ _ _ H Hlen) as [-> ->]. now split.
Qed.

Lemma percent_ends b : forall b' post post',
  Re.all_chars not_percent b = true -> Re.all_chars not_percent b' = true ->
  b +:+ "%" +:+ post = b' +:+ "%" +:+ post' -> b = b'.
Proof.
  induction b as [|c b IH]; intros [|c' b'] post post' Hb Hb' H;
    simpl in *; try reflexivity.
  - injection H as <- _. discriminate.
  - injection H as -> _. discriminate.
  - injection H as -> H.
    apply andb_prop in Hb as [_ Hb]. apply andb_prop in Hb' as [_ Hb'].
    f_equal. eapply IH; eassumption.
Qed.

Lemma change_first_match_unique text w w' :
  first_match change_re text w -> first_match change_re text w' -> w = w'.
Proof.
  intros (Hm & n & Hocc & Hleft) (Hm' & n' & Hocc' & Hleft').
  assert (n = n') as <-.
  { destruct (Nat.lt_total n n') as [Hlt|[Heq|Hlt]]; [|assumption|].
    - now destruct (Hleft' n w Hlt Hocc).
    - now destruct (Hleft n' w' Hlt Hocc'). }
  destruct (change_word_shape _ Hm) as (b & -> & Hb).
  destruct (change_word_shape _ Hm') as (b' & -> & Hb').
  destruct Hocc as (pre & post & -> & Hlen).
  destruct Hocc' as (pre' & post' & Heq & Hlen').
  apply app_same_length in Heq as [_ Heq]; [|congruence].
  rewrite !str_app_assoc in Heq. f_equal. eapply percent_ends; eassumption.
Qed.

(** C6, as the code has it. The change field of the row read off a
    flattened text is the first match in it of: an optional minus sign,
    one to three digits, an optional dot or comma followed by digits,
    optional white space, and a percent sign; the text has one first
    match at most. The field is the empty string when the text has no
    such match. *)
Theorem change_24h_first_match (text : string) :
  (first_match change_re text (change_24h (row_of_text text))
   /\ forall w, first_match change_re text w ->
                w = change_24h (row_of_text text))
  \/ (change_24h (row_of_text text) = "" /\ no_match change_re text).
Proof.
  unfold row_of_text. simpl.
  destruct (Re.search change_re text) as [g|] eqn:H.
  - left. apply search_first in H. split; [assumption|].
    intros w Hw. now apply (change_first_match_unique text).
  - right. split; [reflexivity | now apply search_none].
Qed.

(** C6 fails as stated: in ["5 %"] no number is immediately followed by a
    percent sign, yet the change field is ["5 %"]; and in ["1234%"] the
    number in front of the percent sign is 1234, yet the change field is
    ["234%"]. *)
Lemma change_24h_not_as_specified :
  change_24h (row_of_text "5 %") = "5 %"
  /\ change_24h_as_specified "5 %" = ""
  /\ no_match change_re_as_specified "5 %"
  /\ change_24h (row_of_text "1234%") = "234%"
  /\ change_24h_as_specified "1234%" = "1234%".
Proof.
  repeat split; try reflexivity.
  apply search_none. reflexivity.
Qed.

(** A match of the volume pattern is never empty, so the scan of
    [re.findall] always moves on by the length of its match. *)
Lemma volume_word_nonempty w : Re.matches volume_re w -> 1 <= String.length w.
Proof.
  unfold volume_re. intros H.
  inversion H as [| |? ? ds w1 Hds _| | | | |]; subst.
  inversion Hds; subst. rewrite str_length_app. lia.
Qed.

(** C7. The tree of ["<tr>BTC/USDT Strong Buy -2.5% 14.3K</tr>"], with or
    without the [html] and [body] elements a parser adds, yields exactly
    one row, with symbol ["BTC/USDT"], change ["-2.5%"] and volume
    ["14.3K"]. *)
Theorem btc_usdt_scenario :
  parse_rows_from_soup btc_row_soup = [btc_row]
  /\ parse_rows_from_soup btc_row_soup_bare = [btc_row]
  /\ symbol btc_row = "BTC/USDT"
  /\ change_24h btc_row = "-2.5%"
  /\ volume_24h btc_row = "14.3K".
Proof. repeat split; vm_compute; reflexivity. Qed.

(** ** The walk towards the root *)

Lemma climb_no_container cls s up :
  Forall not_container (take 4 up) ->
  climb 5 (Some (string_at cls s up)) = ancestor (string_at cls s up) 4.
Proof.
  unfold not_container, ancestor.
  destruct up as [|p1 [|p2 [|p3 [|p4 [|p5 up]]]]]; simpl;
    rewrite ?Forall_cons; unfold Bs4.name; simpl; intros H;
    repeat match goal with
           | H : _ /\ _ |- _ => destruct H as [? H]
           | H : is_container _ = false |- _ => rewrite H; clear H
           end; reflexivity.
Qed.

Lemma climb_none cls s up :
  climb 5 (Some (string_at cls s up)) = None <->
  length up < 5 /\ Forall not_container up.
Proof.
  split.
  - unfold not_container, Bs4.name.
    destruct up as [|p1 [|p2 [|p3 [|p4 [|p5 up]]]]]; simpl;
      repeat match goal with
             | |- context [is_container ?x] =>
                 let E := fresh "E" in destruct (is_container x) eqn:E
             end; simpl; try discriminate; intros _;
      (split; [lia | repeat constructor; assumption]).
  - intros [Hlen Hall]. rewrite climb_no_container.
    + unfold ancestor. simpl. rewrite lookup_ge_None_2; [reflexivity | lia].
    + rewrite take_ge by lia. assumption.
Qed.

(** C8, as the code has it. A marker whose ancestors are fewer than five
    and include no container yields no row, and only such a marker yields
    none. A marker with no container among its first four ancestors
    yields the row of its fifth ancestor when it has one. *)
Theorem marker_without_container
        (cls : Bs4.string_class) (s : string) (up : list Bs4.node) :
  (row_of_candidate (string_at cls s up) = None <->
     length up < 5 /\ Forall not_container up)
  /\ (Forall not_container (take 4 up) ->
      row_of_candidate (string_at cls s up)
      = (fun p => row_of_text (Bs4.get_text "|" p))
          <$> ancestor (string_at cls s up) 4).
Proof.
  unfold row_of_candidate. split.
  - rewrite <- (climb_none cls s up).
    destruct (climb 5 (Some (string_at cls s up)));
      split; intros H; first [discriminate H | reflexivity].
  - intros H. rewrite (climb_no_container _ _ _ H).
    now destruct (ancestor (string_at cls s up) 4).
Qed.

(** C8 fails as stated: in the tree of ["<p><b>Strong Buy</b></p>"] the
    marker has five ancestors, none of them a container, and it yields a
    row all the same, read off the root. *)
Lemma bold_marker_yields_row :
  exists e,
    Bs4.find_all_string strong_buy_re bold_marker_soup = [e]
    /\ Forall not_container (take 5 (Bs4.el_up e))
    /\ row_of_candidate e
       = Some {| symbol := "Strong Buy"; change_24h := ""; volume_24h := "";
                 context := "Strong Buy" |}
    /\ parse_rows_from_soup bold_marker_soup
       = [{| symbol := "Strong Buy"; change_24h := ""; volume_24h := "";
             context := "Strong Buy" |}].
Proof.
  eexists. split; [vm_compute; reflexivity|].
  split; [repeat constructor|].
  split; vm_compute; reflexivity.
Qed.

(** ** The symbol of a row *)

Lemma symbol_word_length w : Re.matches symbol_re w -> 2 <= String.length w.
Proof.
  unfold symbol_re. intros H.
  inversion H as [| | |ra rb w' Hl|ra rb w' Hr| | |]; subst.
  - inversion Hl as [| |ra rb w1 w2 H1 H2| | | | |]; subst.
    inversion H1; subst. rewrite str_length_app. lia.
  - inversion Hr; subst. assumption.
Qed.

Lemma symbol_of_text_empty text :
  symbol (row_of_text text) = "" <->
  no_match symbol_re text /\ exists t, text = String "|" t.
Proof.
  unfold row_of_text. simpl.
  destruct (Re.search symbol_re text) as [g|] eqn:H.
  - apply search_first in H. split.
    + intros ->. destruct H as [Hm _]. apply symbol_word_length in Hm.
      simpl in Hm. lia.
    + intros [Hno _]. now apply first_match_not_no_match in H.
  - apply search_none in H. destruct text as [|c t]; simpl.
    + split; [discriminate | now intros [_ [t [=]]]].
    + destruct (Ascii.eqb_spec c "|") as [->|Hne]; split.
      * intros _. eauto.
      * reflexivity.
      * discriminate.
      * intros [_ [t' [= -> _]]]. contradiction.
Qed.

(** C9, as the code has it. The symbol of a row an extraction returns is
    empty exactly when its flattened text begins with a pipe character
    and holds no symbol token; the dedup key of such a row is the first
    30 characters of its context, and the key of every other row is its
    symbol. *)
Theorem symbol_empty_iff (soup : Bs4.node) (r : row) :
  r ∈ parse_rows_from_soup soup ->
  (symbol r = "" <->
     no_match symbol_re (context r) /\ exists t, context r = String "|" t)
  /\ (symbol r = "" -> dedup_key r = Str.take 30 (context r))
  /\ (symbol r <> "" -> dedup_key r = symbol r).
Proof.
  intros Hr. apply parse_rows_shape in Hr. split; [|split].
  - rewrite Hr at 1. apply symbol_of_text_empty.
  - unfold dedup_key. now intros ->.
  - unfold dedup_key. now destruct (symbol r).
Qed.

Lemma symbol_empty_iff_witness :
  let r := {| symbol := ""; change_24h := ""; volume_24h := "";
              context := "| strong buy a" |} in
  (symbol r = "" <->
     no_match symbol_re (context r) /\ exists t, context r = String "|" t)
  /\ (symbol r = "" -> dedup_key r = Str.take 30 (context r))
  /\ (symbol r <> "" -> dedup_key r = symbol r).
Proof.
  apply (symbol_empty_iff pipe_rows_soup).
  vm_compute. apply list_elem_of_here.
Defined.

(** C9 fails as stated: the two rows of
    ["<div>| strong buy a</div><div>| strong buy b</div>"] have the empty
    symbol, and both are kept because their contexts differ. *)
Lemma pipe_rows_have_empty_symbol :
  parse_rows_from_soup pipe_rows_soup
  = [ {| symbol := ""; change_24h := ""; volume_24h := "";
         context := "| strong buy a" |};
      {| symbol := ""; change_24h := ""; volume_24h := "";
         context := "| strong buy b" |} ]
  /\ map dedup_key (parse_rows_from_soup pipe_rows_soup)
     = ["| strong buy a"; "| strong buy b"].
Proof. split; vm_compute; reflexivity. Qed.

(** ** The notify loop *)

Ltac run := unfold mbind, mret, M_bind, M_ret, bind, ret, call, get_state,
                   modify, try_except in *; simpl in *.

Lemma notification_key_inj a b d :
  notification_key a d = notification_key b d -> a = b.
Proof.
  unfold notification_key. intros H.
  assert (Hlen : String.length a = String.length b).
  { apply (f_equal String.length) in H. rewrite !str_length_app in H. lia. }
  revert b H Hlen. induction a as [|c a IHa]; intros [|c' b];
    simpl; try discriminate; auto.
  intros [= -> H] [= Hlen]. f_equal. now apply IHa.
Qed.

Lemma send_telegram_message_spec w msg st :
  send_telegram_message w msg st
  = (Returns (post_ok w (length (sent_log st)) msg), st).
Proof.
  unfold send_telegram_message, post_ok. run.
  destruct (http_post w (length (sent_log st)) msg) as [resp|e]; [|reflexivity].
  now destruct (raise_for_status resp).
Qed.

Lemma notify_one_marked w d it nn st :
  notification_key (symbol it) d ∈ last_sent st ->
  notify_one w d it nn st = (Returns nn, st).
Proof.
  intros H. unfold notify_one. run.
  now destruct (decide (notification_key (symbol it) d ∈ last_sent st)).
Qed.

Lemma notify_one_new w d it nn st :
  notification_key (symbol it) d ∉ last_sent st ->
  let ok := post_ok w (length (sent_log st))
                    (message (symbol it) (change_24h it) (volume_24h it)) in
  notify_one w d it nn st
  = if ok then
      (Returns (nn ++ [it]),
       with_last_sent ({[ notification_key (symbol it) d ]} ∪ last_sent st)
                      (with_event (send_event_of it d true) st))
    else (Returns nn, with_event (send_event_of it d false) st).
Proof.
  intros H ok. unfold notify_one.
  unfold mbind at 1, M_bind at 1, bind at 1, get_state at 1.
  destruct (decide (notification_key (symbol it) d ∈ last_sent st));
    [contradiction|].
  unfold mbind at 1, M_bind at 1, bind at 1.
  rewrite send_telegram_message_spec. fold ok.
  unfold mark_notified, log_send, send_event_of. run.
  now destruct ok.
Qed.

(** The loop returns, leaves the snapshot alone, and only adds to the
    ledger and to the trace. *)
Lemma notify_loop_spec w d : forall its nn st,
  exists nn' evs ledger,
    notify_loop w d its nn st
    = (Returns nn',
       {| last_sent := ledger;
          last_run_results := last_run_results st;
          last_run_time := last_run_time st;
          sent_log := sent_log st ++ evs |})
    /\ (forall k, k ∈ ledger <->
          k ∈ last_sent st
          \/ exists ev, ev ∈ evs /\ event_key ev = k /\ ev_ok ev = true)
    /\ (forall ev, ev ∈ evs -> ev_day ev = d)
    /\ (forall it, it ∈ its ->
          notification_key (symbol it) d ∈ last_sent st
          \/ exists ev, ev ∈ evs /\ ev_symbol ev = symbol it /\ ev_day ev = d).
Proof.
  induction its as [|it its IH]; intros nn st.
  - exists nn, [], (last_sent st). simpl. rewrite app_nil_r.
    split; [now destruct st|]. split; [|split].
    + intros k. split; [tauto|]. intros [H|(ev & H & _)]; [assumption|].
      inversion H.
    + intros ev H. inversion H.
    + intros it H. inversion H.
  - simpl. unfold mbind at 1, M_bind at 1, bind at 1.
    destruct (decide (notification_key (symbol it) d ∈ last_sent st)) as [Hin|Hnew].
    + rewrite (notify_one_marked _ _ _ _ _ Hin).
      destruct (IH nn st) as (nn' & evs & ledger & -> & Hl & Hd & Hs).
      exists nn', evs, ledger. split; [reflexivity|]. split; [assumption|].
      split; [assumption|].
      intros x Hx. apply elem_of_cons in Hx as [->|Hx]; [now left | now apply Hs].
    + rewrite (notify_one_new w d it nn st Hnew).
      set (ok := post_ok _ _ _). destruct ok eqn:Hok.
      * destruct (IH (nn ++ [it])
                    (with_last_sent
                       ({[ notification_key (symbol it) d ]} ∪ last_sent st)
                       (with_event (send_event_of it d true) st)))
          as (nn' & evs & ledger & -> & Hl & Hd & Hs).
        simpl in *. exists nn', (send_event_of it d true :: evs), ledger.
        rewrite <- app_assoc. split; [reflexivity|]. split; [|split].
        -- intros k. rewrite Hl. setoid_rewrite elem_of_cons.
           rewrite elem_of_union, elem_of_singleton. split.
           ++ intros [[->|H]|(ev & H & Hk & Ho)]; eauto 7.
           ++ intros [H|(ev & [->|H] & Hk & Ho)]; eauto 7.
        -- intros ev Hev. apply elem_of_cons in Hev as [->|Hev]; auto.
        -- intros x Hx. apply elem_of_cons in Hx as [->|Hx].
           ++ right. exists (send_event_of it d true).
              split; [apply elem_of_cons; now left | auto].
           ++ destruct (Hs x Hx) as [H|(ev & H & Hsym & Hday)].
              ** apply elem_of_union in H as [H|H]; [|now left].
                 apply elem_of_singleton in H. right.
                 exists (send_event_of it d true).
                 split; [apply elem_of_cons; now left|]. split; [|reflexivity].
                 simpl. symmetry. eapply notification_key_inj, H.
              ** right. exists ev. split; [apply elem_of_cons; now right | auto].
      * destruct (IH nn (with_event (send_event_of it d false) st))
          as (nn' & evs & ledger & -> & Hl & Hd & Hs).
        simpl in *. exists nn', (send_event_of it d false :: evs), ledger.
        rewrite <- app_assoc. split; [reflexivity|]. split; [|split].
        -- intros k. rewrite Hl. setoid_rewrite elem_of_cons. split.
           ++ intros [H|(ev & H & Hk & Ho)]; eauto 7.
           ++ intros [H|(ev & [->|H] & Hk & Ho)]; eauto 7. discriminate.
        -- intros ev Hev. apply elem_of_cons in Hev as [->|Hev]; auto.
        -- intros x Hx. apply elem_of_cons in Hx as [->|Hx].
           ++ right. exists (send_event_of it d false).
              split; [apply elem_of_cons; now left | auto].
           ++ destruct (Hs x Hx) as [H|(ev & H & Hsym & Hday)]; [now left|].
              right. exists ev. split; [apply elem_of_cons; now right | auto].
Qed.

(** ** The scan cycle *)

Lemma lightweight_scrape_spec w st :
  lightweight_scrape w st = (scrape_outcome w, st).
Proof.
  unfold lightweight_scrape, scrape_outcome. run.
  destruct (http_get w) as [resp|e]; [|reflexivity].
  destruct (raise_for_status resp); [|reflexivity].
  now destruct (parse_html w (text resp)).
Qed.

Lemma notify_loop_state w d its nn st :
  exists nn', notify_loop w d its nn st
              = (Returns nn', snd (notify_loop w d its nn st)).
Proof.
  destruct (notify_loop_spec w d its nn st) as (nn' & evs & ledger & -> & _).
  now exists nn'.
Qed.

(** A cycle returns, and its effect on the state is decided by the two
    calls that read the day and the clock. *)
Lemma cycle_spec w st :
  scrape_tradingview_and_notify w st
  = (Returns tt,
     match utcnow_date w with
     | Raises _ => st
     | Returns d =>
         let st1 :=
           with_results (filtered_of w)
                        (snd (notify_loop w d (filtered_of w) [] st)) in
         match clock w with
         | Returns t => with_time t st1
         | Raises _ => st1
         end
     end).
Proof.
  unfold scrape_tradingview_and_notify, filtered_of.
  unfold try_except at 1. unfold mbind at 1, M_bind at 1, bind at 1.
  unfold try_except at 1. rewrite lightweight_scrape_spec.
  set (items := match scrape_outcome w with
                | Returns items => items
                | Raises _ => []
                end).
  assert (Hitems :
    (let (o, st') := (scrape_outcome w, st) in
     match o with
     | Returns a => (Returns a, st')
     | Raises e => ret [] st'
     end) = (Returns items, st)).
  { unfold items, ret. now destruct (scrape_outcome w). }
  rewrite Hitems. clear Hitems.
  unfold mbind at 1, M_bind at 1, bind at 1, call at 1.
  destruct (utcnow_date w) as [d|e]; [|reflexivity].
  unfold mbind at 1, M_bind at 1, bind at 1.
  destruct (notify_loop_state w d (strong_buy_filter items) [] st) as [nn' ->].
  simpl. unfold set_last_run_results, set_last_run_time. run.
  now destruct (clock w).
Qed.

Lemma after_cycle_spec w st :
  after_cycle w st
  = match utcnow_date w with
    | Raises _ => st
    | Returns d =>
        let st1 :=
          with_results (filtered_of w)
                       (snd (notify_loop w d (filtered_of w) [] st)) in
        match clock w with
        | Returns t => with_time t st1
        | Raises _ => st1
        end
    end.
Proof. unfold after_cycle. now rewrite cycle_spec. Qed.

(** What a cycle does to the ledger and to the trace. *)
Lemma cycle_ledger w st :
  exists evs,
    sent_log (after_cycle w st) = sent_log st ++ evs
    /\ cycle_events w st = evs
    /\ (forall k, k ∈ last_sent (after_cycle w st) <->
          k ∈ last_sent st
          \/ exists ev, ev ∈ evs /\ event_key ev = k /\ ev_ok ev = true)
    /\ (forall d, utcnow_date w = Returns d ->
          forall it, it ∈ filtered_of w ->
            notification_key (symbol it) d ∈ last_sent st
            \/ exists ev, ev ∈ evs /\ ev_symbol ev = symbol it /\ ev_day ev = d).
Proof.
  assert (Hev : forall evs,
    sent_log (after_cycle w st) = sent_log st ++ evs -> cycle_events w st = evs).
  { intros evs H. unfold cycle_events. rewrite H. apply drop_app_length. }
  rewrite after_cycle_spec in *. destruct (utcnow_date w) as [d|e].
  - destruct (notify_loop_spec w d (filtered_of w) [] st)
      as (nn' & evs & ledger & Heq & Hl & Hd & Hs).
    rewrite Heq in *. exists evs.
    assert (Hlog : sent_log
      (let st1 := with_results (filtered_of w)
         (snd (Returns nn',
               {| last_sent := ledger;
                  last_run_results := last_run_results st;
                  last_run_time := last_run_time st;
                  sent_log := sent_log st ++ evs |})) in
       match clock w with
       | Returns t => with_time t st1
       | Raises _ => st1
       end) = sent_log st ++ evs) by now destruct (clock w).
    split; [assumption|]. split; [now apply Hev|]. split.
    + intros k. rewrite <- Hl. now destruct (clock w).
    + intros d' [= <-]. assumption.
  - exists []. rewrite app_nil_r. split; [reflexivity|].
    split; [apply Hev; now rewrite app_nil_r|]. split.
    + intros k. split; [tauto|]. intros [H|(ev & H & _)]; [assumption|].
      inversion H.
    + intros d [=].
Qed.

(** C1, as the code has it. Every exception raised in a cycle is handled
    inside it, so the cycle always returns. When the day and the clock can
    be read, the snapshot is replaced by the filtered rows of the cycle
    (none when the fetch or the extraction failed) and the current time,
    whatever the sends answered. When reading the day raises, the cycle
    ends there and leaves the whole state, the snapshot included, as it
    was; when reading the clock raises, the rows have been replaced and
    the time stamp has not. *)
Theorem cycle_returns_and_snapshot (w : world) (st : state) :
  scrape_tradingview_and_notify w st = (Returns tt, after_cycle w st)
  /\ match utcnow_date w, clock w with
     | Returns _, Returns t => snapshot (after_cycle w st) = (t, filtered_of w)
     | Returns _, Raises _ =>
         snapshot (after_cycle w st) = (last_run_time st, filtered_of w)
     | Raises _, _ => after_cycle w st = st
     end.
Proof.
  split; [unfold after_cycle; now rewrite cycle_spec|].
  rewrite after_cycle_spec. destruct (utcnow_date w) as [d|e]; [|reflexivity].
  destruct (notify_loop_spec w d (filtered_of w) [] st)
    as (nn' & evs & ledger & -> & _).
  now destruct (clock w).
Qed.

(** C1 fails as stated: the page is fetched and yields a row, reading the
    day raises, and the cycle returns with the rows and the time stamp of
    the cycle before. *)
Lemma failure_outside_handlers_keeps_snapshot :
  filtered_of world_date_fails = [btc_row]
  /\ clock world_date_fails = Returns 1714521600%Z
  /\ fst (scrape_tradingview_and_notify world_date_fails earlier_state)
     = Returns tt
  /\ snapshot (after_cycle world_date_fails earlier_state)
     = (1714435200%Z, [xrp_row]).
Proof. repeat split; vm_compute; reflexivity. Qed.

(** C2. When [lightweight_scrape] raises, and the day and the clock can be
    read, the cycle returns; the rows of the snapshot are the empty
    sequence and its time stamp is the current time; nothing is sent and
    the ledger is as before. *)
Theorem fetch_failure_empties_snapshot
        (w : world) (st : state) (e : exn) (d : string) (t : Z) :
  fst (lightweight_scrape w st) = Raises e ->
  utcnow_date w = Returns d ->
  clock w = Returns t ->
  scrape_tradingview_and_notify w st = (Returns tt, after_cycle w st)
  /\ last_run_results (after_cycle w st) = []
  /\ last_run_time (after_cycle w st) = t
  /\ last_sent (after_cycle w st) = last_sent st
  /\ sent_log (after_cycle w st) = sent_log st.
Proof.
  rewrite lightweight_scrape_spec. simpl. intros Hraise Hd Ht.
  split; [unfold after_cycle; now rewrite cycle_spec|].
  rewrite after_cycle_spec, Hd, Ht. unfold filtered_of. rewrite Hraise.
  simpl. auto.
Qed.

Lemma fetch_failure_empties_snapshot_witness :
  scrape_tradingview_and_notify world_timeout earlier_state
  = (Returns tt, after_cycle world_timeout earlier_state)
  /\ last_run_results (after_cycle world_timeout earlier_state) = []
  /\ last_run_time (after_cycle world_timeout earlier_state) = 1714521600%Z
  /\ last_sent (after_cycle world_timeout earlier_state) = last_sent earlier_state
  /\ sent_log (after_cycle world_timeout earlier_state) = sent_log earlier_state.
Proof.
  apply (fetch_failure_empties_snapshot world_timeout earlier_state
           (Exception "ReadTimeout") "2024-05-01" 1714521600%Z);
    reflexivity.
Defined.

(** ** Sends and the ledger *)

(** C3. For a record whose key is not in the ledger, the loop makes one
    send call, and afterwards the key is in the ledger if and only if the
    call reported success. When every send made for the key in a cycle
    fails, the key is still not in the ledger after the cycle, and a
    later cycle on the same day whose filtered rows hold the symbol makes
    a send call for it again. *)
Theorem send_marks_only_on_success
        (w1 w2 : world) (d : string) (it : row) (nn : list row) (st : state) :
  notification_key (symbol it) d ∉ last_sent st ->
  let key := notification_key (symbol it) d in
  let ok := post_ok w1 (length (sent_log st))
                    (message (symbol it) (change_24h it) (volume_24h it)) in
  let st' := snd (notify_one w1 d it nn st) in
  sent_log st' = sent_log st ++ [send_event_of it d ok]
  /\ (key ∈ last_sent st' <-> ok = true)
  /\ ((forall ev, ev ∈ cycle_events w1 st -> event_key ev = key ->
                  ev_ok ev = false) ->
      utcnow_date w2 = Returns d ->
      (exists it', it' ∈ filtered_of w2 /\ symbol it' = symbol it) ->
      (key ∉ last_sent (after_cycle w1 st))
      /\ exists ev, ev ∈ cycle_events w2 (after_cycle w1 st)
                    /\ ev_symbol ev = symbol it /\ ev_day ev = d).
Proof.
  intros Hnew key ok st'. unfold st'.
  rewrite (notify_one_new w1 d it nn st Hnew). fold ok. fold key.
  split; [now destruct ok|]. split.
  - destruct ok; simpl; [|split; [contradiction | discriminate]].
    split; [reflexivity|]. intros _. apply elem_of_union. left.
    now apply elem_of_singleton.
  - intros Hfail Hd (it' & Hin & Hsym).
    destruct (cycle_ledger w1 st) as (evs1 & _ & Hev1 & Hl1 & _).
    assert (Hkey : key ∉ last_sent (after_cycle w1 st)).
    { rewrite Hl1. intros [H|(ev & H & Hk & Ho)]; [contradiction|].
      rewrite <- Hev1 in H. rewrite (Hfail ev H Hk) in Ho. discriminate. }
    split; [assumption|].
    destruct (cycle_ledger w2 (after_cycle w1 st)) as (evs2 & _ & Hev2 & _ & Hs2).
    rewrite Hev2. destruct (Hs2 d Hd it' Hin) as [H|H].
    + rewrite Hsym in H. contradiction.
    + now rewrite <- Hsym.
Qed.

Lemma send_marks_only_on_success_witness :
  let w1 := world_of xrp_row_soup "2024-05-01" false 1714521600%Z in
  let w2 := world_of xrp_row_soup "2024-05-01" true 1714521900%Z in
  sent_log (snd (notify_one w1 "2024-05-01" xrp_row [] initial_state))
  = [send_event_of xrp_row "2024-05-01" false]
  /\ ("XRPUSDT|2024-05-01" ∉ last_sent (after_cycle w1 initial_state))
  /\ exists ev, ev ∈ cycle_events w2 (after_cycle w1 initial_state)
                /\ ev_symbol ev = "XRPUSDT" /\ ev_day ev = "2024-05-01".
Proof.
  intros w1 w2.
  destruct (send_marks_only_on_success w1 w2 "2024-05-01" xrp_row []
              initial_state (not_elem_of_empty _)) as (Hlog & _ & Hretry).
  split; [exact Hlog|]. apply Hretry.
  - vm_compute. intros ev Hev _.
    apply list_elem_of_singleton in Hev. now subst ev.
  - reflexivity.
  - exists xrp_row. split; [|reflexivity].
    vm_compute. apply list_elem_of_here.
Defined.

Lemma notify_one_covers w d it nn st :
  ledger_covers st -> ledger_covers (snd (notify_one w d it nn st)).
Proof.
  intros [Hin Hord].
  destruct (decide (notification_key (symbol it) d ∈ last_sent st)) as [Hk|Hk].
  { rewrite (notify_one_marked _ _ _ _ _ Hk). now split. }
  rewrite (notify_one_new w d it nn st Hk).
  set (ok := post_ok _ _ _).
  assert (Hord' : forall i j ev ev',
    i < j -> (sent_log st ++ [send_event_of it d ok]) !! i = Some ev ->
    (sent_log st ++ [send_event_of it d ok]) !! j = Some ev' ->
    ev_ok ev = true -> event_key ev' <> event_key ev).
  { intros i j ev ev' Hlt Hi Hj Hok.
    apply lookup_snoc_Some in Hi as [[Hil Hi]|[-> <-]];
      apply lookup_snoc_Some in Hj as [[Hjl Hj]|[-> <-]]; try lia.
    - now apply (Hord i j).
    - intros Heq. apply Hk.
      replace (notification_key (symbol it) d)
        with (event_key (send_event_of it d ok)) by reflexivity.
      rewrite Heq. apply Hin; [|assumption].
      apply list_elem_of_lookup. eauto. }
  destruct ok; simpl; split; simpl; try assumption.
  - intros ev Hev Hok. apply elem_of_union.
    apply elem_of_app in Hev as [Hev|Hev]; [right; now apply Hin|].
    apply list_elem_of_singleton in Hev. subst ev. left.
    now apply elem_of_singleton.
  - intros ev Hev Hok.
    apply elem_of_app in Hev as [Hev|Hev]; [now apply Hin|].
    apply list_elem_of_singleton in Hev. now subst ev.
Qed.

Lemma notify_one_returns w d it nn st :
  exists nn', notify_one w d it nn st
              = (Returns nn', snd (notify_one w d it nn st)).
Proof.
  destruct (decide (notification_key (symbol it) d ∈ last_sent st)) as [Hk|Hk].
  - rewrite (notify_one_marked _ _ _ _ _ Hk). eauto.
  - rewrite (notify_one_new w d it nn st Hk). destruct (post_ok _ _ _); eauto.
Qed.

Lemma notify_loop_covers w d : forall its nn st,
  ledger_covers st -> ledger_covers (snd (notify_loop w d its nn st)).
Proof.
  induction its as [|it its IH]; intros nn st H; [assumption|].
  simpl. unfold mbind at 1, M_bind at 1, bind at 1.
  destruct (notify_one_returns w d it nn st) as [nn' ->].
  now apply IH, notify_one_covers.
Qed.

Lemma after_cycle_covers w st : ledger_covers st -> ledger_covers (after_cycle w st).
Proof.
  intros H. rewrite after_cycle_spec. destruct (utcnow_date w) as [d|e]; [|assumption].
  pose proof (notify_loop_covers w d (filtered_of w) [] st H) as H'.
  now destruct (clock w).
Qed.

Lemma after_cycles_covers ws : forall st,
  ledger_covers st -> ledger_covers (after_cycles ws st).
Proof.
  unfold after_cycles. induction ws as [|w ws IH]; intros st H; [assumption|].
  simpl. now apply IH, after_cycle_covers.
Qed.

Lemma initial_state_covers : ledger_covers initial_state.
Proof.
  split.
  - intros ev H. inversion H.
  - intros i j ev ev' _ H. discriminate.
Qed.

(** C4. In the trace of the sends of any sequence of cycles of a process,
    a successful send for a symbol and a day is followed by no send call
    for the same symbol and day. *)
Theorem at_most_one_successful_send
        (ws : list world) (i j : nat) (ev ev' : send_event) :
  i < j ->
  sent_log (after_cycles ws initial_state) !! i = Some ev ->
  sent_log (after_cycles ws initial_state) !! j = Some ev' ->
  ev_ok ev = true ->
  ~ (ev_symbol ev' = ev_symbol ev /\ ev_day ev' = ev_day ev).
Proof.
  intros Hlt Hi Hj Hok [Hsym Hday].
  destruct (after_cycles_covers ws _ initial_state_covers) as [_ Hord].
  apply (Hord i j ev ev' Hlt Hi Hj Hok).
  unfold event_key. now rewrite Hsym, Hday.
Qed.

Lemma at_most_one_successful_send_witness :
  ~ (ev_symbol (send_event_of xrp_row "2024-05-01" true)
     = ev_symbol (send_event_of
                    {| symbol := "ETHUSDT"; change_24h := "0.4%";
                       volume_24h := "9M";
                       context := "ETHUSDT Strong Buy 0.4% 9M" |}
                    "2024-05-01" true)
     /\ ev_day (send_event_of xrp_row "2024-05-01" true) = "2024-05-01").
Proof.
  apply (at_most_one_successful_send
           [world_of eth_row_soup "2024-05-01" true 1714521600%Z;
            world_of eth_row_soup "2024-05-01" true 1714521900%Z] 0 1);
    [lia | | | ]; vm_compute; reflexivity.
Defined.

(** * Further properties of the code *)

(** ** The ledger and the trace over the life of a process *)

Lemma after_cycles_cons w ws st :
  after_cycles (w :: ws) st = after_cycles ws (after_cycle w st).
Proof. reflexivity. Qed.

(** X1. The ledger only grows and the trace is only extended, over any
    sequence of cycles and from any state: no key is ever removed. *)
Theorem ledger_and_trace_only_grow (ws : list world) (st : state) :
  last_sent st ⊆ last_sent (after_cycles ws st)
  /\ sent_log st `prefix_of` sent_log (after_cycles ws st).
Proof.
  revert st. induction ws as [|w ws IH]; intros st; [split; reflexivity|].
  rewrite after_cycles_cons.
  destruct (IH (after_cycle w st)) as [Hsub Hpre].
  destruct (cycle_ledger w st) as (evs & Hlog & _ & Hl & _). split.
  - intros k Hk. apply Hsub, Hl. now left.
  - etransitivity; [|exact Hpre]. rewrite Hlog. now apply prefix_app_r.
Qed.

(** X2. In a process started from the initial state the ledger holds exactly
    the keys of the sends that succeeded: a key is never marked without
    a successful send, and every successful send is marked. *)
Theorem ledger_is_the_successful_sends (ws : list world) (k : string) :
  k ∈ last_sent (after_cycles ws initial_state) <->
  exists ev, ev ∈ sent_log (after_cycles ws initial_state)
             /\ event_key ev = k /\ ev_ok ev = true.
Proof.
  assert (Hinv : forall ws st,
    (forall k, k ∈ last_sent st <->
       exists ev, ev ∈ sent_log st /\ event_key ev = k /\ ev_ok ev = true) ->
    forall k, k ∈ last_sent (after_cycles ws st) <->
       exists ev, ev ∈ sent_log (after_cycles ws st)
                  /\ event_key ev = k /\ ev_ok ev = true).
  { clear. induction ws as [|w ws IH]; intros st Hst; [exact Hst|].
    rewrite after_cycles_cons. apply IH. intros k.
    destruct (cycle_ledger w st) as (evs & -> & _ & Hl & _).
    rewrite Hl, Hst. setoid_rewrite elem_of_app. split.
    - intros [(ev & H)|(ev & H)]; exists ev; tauto.
    - intros (ev & [H|H] & H'); [left | right]; exists ev; tauto. }
  apply Hinv. intros k'. split.
  - intros H. now apply not_elem_of_empty in H.
  - intros (ev & H & _). inversion H.
Qed.

Lemma notify_loop_all_marked w d : forall its nn st,
  (forall it, it ∈ its -> notification_key (symbol it) d ∈ last_sent st) ->
  notify_loop w d its nn st = (Returns nn, st).
Proof.
  induction its as [|it its IH]; intros nn st H; [reflexivity|].
  simpl. unfold mbind at 1, M_bind at 1, bind at 1.
  rewrite notify_one_marked by (apply H, elem_of_cons; now left).
  apply IH. intros x Hx. apply H, elem_of_cons. now right.
Qed.

(** X3. A cycle in which the key of every filtered row is already in the
    ledger makes no send call and leaves the ledger as it is. *)
Theorem marked_rows_are_not_sent_again (w : world) (st : state) (d : string) :
  utcnow_date w = Returns d ->
  (forall it, it ∈ filtered_of w ->
              notification_key (symbol it) d ∈ last_sent st) ->
  cycle_events w st = []
  /\ last_sent (after_cycle w st) = last_sent st.
Proof.
  intros Hd Hall. unfold cycle_events. rewrite after_cycle_spec, Hd.
  rewrite (notify_loop_all_marked w d _ [] st Hall). simpl.
  destruct (clock w); simpl; rewrite drop_all; now split.
Qed.

Lemma marked_rows_are_not_sent_again_witness :
  let w := world_of xrp_row_soup "2024-05-01" true 1714521900%Z in
  let st := after_cycle (world_of xrp_row_soup "2024-05-01" true 1714521600%Z)
                        initial_state in
  cycle_events w st = [] /\ last_sent (after_cycle w st) = last_sent st.
Proof.
  intros w st.
  apply (marked_rows_are_not_sent_again w st "2024-05-01"); [reflexivity|].
  intros it Hit. vm_compute in Hit.
  apply list_elem_of_singleton in Hit. subst it.
  apply (bool_decide_unpack _). vm_compute. exact I.
Defined.

Lemma notify_loop_events w d : forall its nn st,
  exists evs,
    sent_log (snd (notify_loop w d its nn st)) = sent_log st ++ evs
    /\ sublist (ev_symbol <$> evs) (symbol <$> its)
    /\ forall ev, ev ∈ evs ->
         exists it, it ∈ its /\ ev = send_event_of it d (ev_ok ev).
Proof.
  induction its as [|it its IH]; intros nn st.
  - exists []. simpl. rewrite app_nil_r. split; [reflexivity|].
    split; [constructor|]. intros ev H. inversion H.
  - simpl. unfold mbind at 1, M_bind at 1, bind at 1.
    destruct (decide (notification_key (symbol it) d ∈ last_sent st)) as [Hk|Hk].
    + rewrite (notify_one_marked _ _ _ _ _ Hk).
      destruct (IH nn st) as (evs & Hlog & Hsub & Hev).
      exists evs. split; [assumption|]. split; [now apply sublist_cons|].
      intros ev H. destruct (Hev ev H) as (x & Hx & Heq).
      exists x. split; [apply elem_of_cons; now right | assumption].
    + rewrite (notify_one_new w d it nn st Hk).
      set (ok := post_ok _ _ _).
      assert (Hstep : exists nn1 st1,
        (if ok
         then (Returns (nn ++ [it]),
               with_last_sent ({[notification_key (symbol it) d]} ∪ last_sent st)
                              (with_event (send_event_of it d true) st))
         else (Returns nn, with_event (send_event_of it d false) st))
        = (Returns nn1, st1)
        /\ sent_log st1 = sent_log st ++ [send_event_of it d ok]).
      { destruct ok; eauto. }
      destruct Hstep as (nn1 & st1 & -> & Hlog1).
      destruct (IH nn1 st1) as (evs & Hlog & Hsub & Hev).
      exists (send_event_of it d ok :: evs).
      rewrite Hlog, Hlog1, <- app_assoc. split; [reflexivity|].
      split; [now apply sublist_skip|].
      intros ev H. apply elem_of_cons in H as [->|H].
      * exists it. split; [apply elem_of_cons; now left | reflexivity].
      * destruct (Hev ev H) as (x & Hx & Heq).
        exists x. split; [apply elem_of_cons; now right | assumption].
Qed.

(** X4. The sends of a cycle follow the filtered rows in their order, at most
    one send for a row; each send is made on the day the cycle read and
    carries the symbol, the change and the volume of its row. *)
Theorem sends_follow_the_filtered_rows (w : world) (st : state) :
  sublist (ev_symbol <$> cycle_events w st) (symbol <$> filtered_of w)
  /\ forall ev, ev ∈ cycle_events w st ->
       exists it, it ∈ filtered_of w
                  /\ utcnow_date w = Returns (ev_day ev)
                  /\ ev_symbol ev = symbol it
                  /\ ev_text ev
                     = message (symbol it) (change_24h it) (volume_24h it).
Proof.
  unfold cycle_events. rewrite after_cycle_spec.
  destruct (utcnow_date w) as [d|e].
  - destruct (notify_loop_events w d (filtered_of w) [] st)
      as (evs & Hlog & Hsub & Hev).
    assert (Hdrop : drop (length (sent_log st))
      (sent_log
         (let st1 := with_results (filtered_of w)
                       (snd (notify_loop w d (filtered_of w) [] st)) in
          match clock w with
          | Returns t => with_time t st1
          | Raises _ => st1
          end)) = evs).
    { destruct (clock w); simpl; rewrite Hlog; apply drop_app_length. }
    rewrite Hdrop. split; [assumption|].
    intros ev H. destruct (Hev ev H) as (it & Hit & Heq).
    exists it. split; [assumption|]. rewrite Heq. simpl. auto.
  - rewrite drop_all. split; [apply sublist_nil_l|].
    intros ev H. inversion H.
Qed.

(** ** What the snapshot holds *)

Lemma filter_sublist {A} (p : A -> bool) (l : list A) :
  sublist (List.filter p l) l.
Proof.
  induction l as [|x l IH]; simpl; [constructor|].
  destruct (p x); [now apply sublist_skip | now apply sublist_cons].
Qed.

Lemma filtered_of_rows w :
  filtered_of w = []
  \/ exists soup, filtered_of w = strong_buy_filter (parse_rows_from_soup soup).
Proof.
  unfold filtered_of. destruct (scrape_outcome w) as [items|e] eqn:H;
    [|now left].
  right. unfold scrape_outcome in H.
  destruct (http_get w) as [resp|]; [|discriminate].
  destruct (raise_for_status resp); [|discriminate].
  destruct (parse_html w (text resp)) as [soup|]; [|discriminate].
  injection H as <-. eauto.
Qed.

(** X5. Whenever a cycle replaces the rows of the snapshot, every row it
    stores holds the marker in its context, and no two stored rows have
    the same dedup key. *)
Theorem snapshot_rows_are_marked_and_distinct
        (w : world) (st : state) (d : string) :
  utcnow_date w = Returns d ->
  (forall r, r ∈ last_run_results (after_cycle w st) ->
             Re.found strong_buy_re (context r) = true)
  /\ NoDup (dedup_key <$> last_run_results (after_cycle w st)).
Proof.
  intros Hd.
  assert (Hres : last_run_results (after_cycle w st) = filtered_of w).
  { rewrite after_cycle_spec, Hd. now destruct (clock w). }
  rewrite Hres. split.
  - intros r Hr. unfold filtered_of, strong_buy_filter in Hr.
    apply list_elem_of_In, filter_In in Hr. tauto.
  - destruct (filtered_of_rows w) as [->|[soup ->]]; [constructor|].
    apply (sublist_NoDup _ (dedup_key <$> parse_rows_from_soup soup)).
    + unfold parse_rows_from_soup, dedup.
      pose proof (dedup_loop_keyed (extract_rows soup) [] (Forall_nil_2 _)) as Hkeyed.
      pose proof (dedup_loop_NoDup (extract_rows soup) [] (NoDup_nil_2)) as Hnd.
      change (NoDup (map dedup_key (map snd (dedup_loop [] (extract_rows soup))))).
      now rewrite keyed_map_key.
    + apply fmap_sublist, filter_sublist.
Qed.

Lemma snapshot_rows_are_marked_and_distinct_witness :
  let w := world_of eth_row_soup "2024-05-01" false 1714521600%Z in
  (forall r, r ∈ last_run_results (after_cycle w earlier_state) ->
             Re.found strong_buy_re (context r) = true)
  /\ NoDup (dedup_key <$> last_run_results (after_cycle w earlier_state)).
Proof.
  intros w.
  apply (snapshot_rows_are_marked_and_distinct w earlier_state "2024-05-01").
  reflexivity.
Defined.

(** ** The status views *)

(** The ISO text at the epoch, on a leap day, and at the two ends of the
    range; the instants next to the ends raise. *)
Lemma utcfromtimestamp_isoformat_at_the_edges :
  utcfromtimestamp_isoformat 0 = Returns "1970-01-01T00:00:00"
  /\ utcfromtimestamp_isoformat 951868799 = Returns "2000-02-29T23:59:59"
  /\ utcfromtimestamp_isoformat (-1) = Returns "1969-12-31T23:59:59"
  /\ utcfromtimestamp_isoformat (-62135596800) = Returns "0001-01-01T00:00:00"
  /\ utcfromtimestamp_isoformat 253402300799 = Returns "9999-12-31T23:59:59"
  /\ utcfromtimestamp_isoformat (-62135596801) = Raises (Exception "ValueError")
  /\ utcfromtimestamp_isoformat 253402300800 = Raises (Exception "ValueError").
Proof. repeat split; vm_compute; reflexivity. Qed.



(** ** Characters of a match *)

Lemma In_all_ascii c : In c all_ascii.
Proof.
  unfold all_ascii. rewrite <- (ascii_nat_embedding c).
  apply in_map, in_seq. pose proof (nat_ascii_bounded c). lia.
Qed.

Lemma class_sub_spec p q c : class_sub p q = true -> p c = true -> q c = true.
Proof.
  unfold class_sub. rewrite forallb_forall. intros H Hp.
  specialize (H c (In_all_ascii c)). now rewrite Hp in H.
Qed.

Lemma regex_chars_spec q r : forall w,
  regex_chars q r = true -> Re.matches r w -> Re.all_chars q w = true.
Proof.
  induction r as [|p|r1 IH1 r2 IH2|r1 IH1 r2 IH2|r IH|p lo hi];
    intros w Hq Hm; simpl in Hq.
  - now inversion Hm.
  - inversion Hm as [|? c Hc| | | | | |]; subst. simpl.
    now rewrite (class_sub_spec _ _ _ Hq Hc).
  - apply andb_prop in Hq as [H1 H2].
    inversion Hm as [| |? ? w1 w2 Hm1 Hm2| | | | |]; subst.
    now rewrite all_chars_app, IH1, IH2.
  - apply andb_prop in Hq as [H1 H2].
    inversion Hm; subst; auto.
  - inversion Hm; subst; auto.
  - inversion Hm; subst.
    eapply all_chars_impl; [|eassumption].
    intros c. now apply class_sub_spec.
Qed.

Lemma before_no_sep s : Re.all_chars no_pipe (Str.before "|" s) = true.
Proof.
  induction s as [|c s IH]; simpl; [reflexivity|].
  destruct (Ascii.eqb c "|") eqn:E; simpl; [reflexivity|].
  unfold no_pipe at 1. now rewrite E.
Qed.

Lemma key_splits a : forall b d d',
  Re.all_chars no_pipe a = true -> Re.all_chars no_pipe b = true ->
  notification_key a d = notification_key b d' -> a = b /\ d = d'.
Proof.
  unfold notification_key.
  induction a as [|c a IH]; intros [|c' b] d d' Ha Hb H; simpl in *.
  - injection H as ->. now split.
  - injection H as <- _. discriminate.
  - injection H as -> _. discriminate.
  - injection H as -> H.
    apply andb_prop in Ha as [_ Ha]. apply andb_prop in Hb as [_ Hb].
    destruct (IH _ _ _ Ha Hb H) as [-> ->]. now split.
Qed.

Lemma symbol_no_pipe text :
  Re.all_chars no_pipe (symbol (row_of_text text)) = true.
Proof.
  unfold row_of_text. simpl.
  destruct (Re.search symbol_re text) as [g|] eqn:H.
  - apply search_first in H as [Hm _].
    now apply (regex_chars_spec no_pipe symbol_re).
  - destruct (Str.truthy text); [apply before_no_sep | reflexivity].
Qed.

(** X7. The symbol of an extracted row never holds a pipe character, so the
    notification key of a row and a day gives back both: two keys are
    equal only for the same symbol and the same day. *)
Theorem extracted_keys_are_unambiguous (t1 t2 d1 d2 : string) :
  Re.all_chars no_pipe (symbol (row_of_text t1)) = true
  /\ (notification_key (symbol (row_of_text t1)) d1
      = notification_key (symbol (row_of_text t2)) d2 ->
      symbol (row_of_text t1) = symbol (row_of_text t2) /\ d1 = d2).
Proof.
  split; [apply symbol_no_pipe|].
  apply key_splits; apply symbol_no_pipe.
Qed.

(** ** The volume of a row *)

Lemma search_rest_unfold r s :
  Re.search_rest r s
  = match Re.go r s (fun rest => Some rest) with
    | Some rest => Some (Str.take (String.length s - String.length rest) s, rest)
    | None =>
        match s with
        | EmptyString => None
        | String _ s' => Re.search_rest r s'
        end
    end.
Proof. now destruct s. Qed.

Lemma search_rest_split r : forall s w rest,
  Re.search_rest r s = Some (w, rest) -> exists pre, s = pre +:+ w +:+ rest.
Proof.
  induction s as [|c s IH]; intros w rest H; rewrite search_rest_unfold in H;
    destruct (Re.go r _ (fun x => Some x)) as [rest0|] eqn:Hgo;
    try discriminate.
  - destruct (go_here_some _ _ _ Hgo) as (w0 & Hs & _ & Htake).
    rewrite Htake in H. injection H as <- <-. now exists "".
  - destruct (go_here_some _ _ _ Hgo) as (w0 & Hs & _ & Htake).
    rewrite Htake in H. injection H as <- <-. now exists "".
  - destruct (IH _ _ H) as [pre ->]. now exists (String c pre).
Qed.

Lemma occurs_at_behind pre w0 n w rest :
  occurs_at n w rest ->
  occurs_at (String.length (pre +:+ w0) + n) w (pre +:+ w0 +:+ rest).
Proof.
  intros (a & b & -> & <-). exists ((pre +:+ w0) +:+ a), b.
  rewrite !str_app_assoc, !str_length_app. split; [reflexivity | lia].
Qed.

Lemma findall_fuel_words r : forall fuel s w,
  w ∈ Re.findall_fuel fuel r s ->
  Re.matches r w /\ exists n, occurs_at n w s.
Proof.
  induction fuel as [|fuel IH]; intros s w Hw; simpl in Hw; [inversion Hw|].
  destruct (Re.search_rest r s) as [[w0 rest]|] eqn:Hs; [|inversion Hw].
  pose proof (search_rest_first _ _ _ _ Hs) as (Hm0 & n0 & Hocc0 & _).
  destruct (search_rest_split _ _ _ _ Hs) as [pre ->].
  assert (Hlift : forall n, occurs_at n w rest ->
            exists n', occurs_at n' w (pre +:+ w0 +:+ rest)).
  { intros n Hocc. eexists. apply occurs_at_behind, Hocc. }
  destruct w0 as [|c0 w0'].
  - destruct rest as [|c rest'].
    + apply list_elem_of_singleton in Hw. subst w. eauto.
    + apply elem_of_cons in Hw as [->|Hw]; [eauto|].
      destruct (IH _ _ Hw) as (Hm & n & Hocc). split; [assumption|].
      apply (Hlift (S n)). now apply occurs_at_cons.
  - apply elem_of_cons in Hw as [->|Hw]; [eauto|].
    destruct (IH _ _ Hw) as (Hm & n & Hocc). split; [assumption|].
    now apply (Hlift n).
Qed.

Lemma findall_nil r s :
  Re.findall r s = [] <-> Re.search_rest r s = None.
Proof.
  unfold Re.findall. simpl.
  destruct (Re.search_rest r s) as [[w rest]|]; [|tauto].
  split; [|discriminate].
  destruct w; [destruct rest|]; discriminate.
Qed.

Lemma all_chars_occurs p n w s :
  Re.all_chars p s = true -> occurs_at n w s -> Re.all_chars p w = true.
Proof.
  intros H (pre & post & -> & _).
  rewrite !all_chars_app, !andb_true_iff in H. tauto.
Qed.

Lemma digit_occurs s :
  Re.all_chars not_digit s = false ->
  exists n c, Re.digit c = true /\ occurs_at n (String c "") s.
Proof.
  induction s as [|c s IH]; simpl; [discriminate|].
  destruct (Re.digit c) eqn:Hc.
  - intros _. exists 0, c. split; [assumption|]. now exists "", s.
  - unfold not_digit at 1. rewrite Hc. simpl. intros H.
    destruct (IH H) as (n & c' & Hc' & Hocc).
    exists (S n), c'. split; [assumption | now apply occurs_at_cons].
Qed.

Lemma volume_no_match_iff text :
  no_match volume_re text <-> Re.all_chars not_digit text = true.
Proof.
  split.
  - intros Hno. destruct (Re.all_chars not_digit text) eqn:H; [reflexivity|].
    destruct (digit_occurs _ H) as (n & c & Hc & Hocc).
    destruct (Hno n _ Hocc).
    change (String c "") with (String c "" +:+ "" +:+ "" +:+ "" +:+ "").
    unfold volume_re. repeat constructor; simpl; now rewrite ?Hc.
  - intros Hall n w Hocc Hm.
    pose proof (all_chars_occurs _ _ _ _ Hall Hocc) as Hw.
    unfold volume_re in Hm.
    inversion Hm as [| |? ? ds w1 Hds _| | | | |]; subst.
    inversion Hds as [| | | | | | |? ? ? ? Hd Hlen _]; subst.
    rewrite all_chars_app in Hw. apply andb_prop in Hw as [Hw _].
    destruct ds as [|c ds]; simpl in *; [lia|].
    apply andb_prop in Hd as [Hd _]. apply andb_prop in Hw as [Hw _].
    unfold not_digit in Hw. now rewrite Hd in Hw.
Qed.

(** X8. The volume field is empty exactly when the flattened text holds no
    digit; otherwise it is a word of the volume pattern, so it begins
    with a digit, and it occurs in the text. *)
Theorem volume_24h_empty_iff_no_digit (text : string) :
  (volume_24h (row_of_text text) = "" <->
     Re.all_chars not_digit text = true)
  /\ (volume_24h (row_of_text text) = ""
      \/ (Re.matches volume_re (volume_24h (row_of_text text))
          /\ exists n, occurs_at n (volume_24h (row_of_text text)) text)).
Proof.
  unfold row_of_text. simpl. rewrite <- volume_no_match_iff.
  destruct (last (Re.findall volume_re text)) as [v|] eqn:Hlast.
  - assert (Hin : v ∈ Re.findall volume_re text).
    { apply last_Some in Hlast as [l ->]. apply elem_of_app. right.
      now apply list_elem_of_singleton. }
    destruct (findall_fuel_words _ _ _ _ Hin) as (Hm & n & Hocc).
    split; [|right; eauto]. split.
    + intros ->. apply volume_word_nonempty in Hm. simpl in Hm. lia.
    + intros Hno. now destruct (Hno n v Hocc).
  - apply last_None in Hlast. apply findall_nil in Hlast.
    split; [|now left]. split; [|reflexivity].
    intros _. now apply search_rest_none.
Qed.

(** ** The walk stops at the nearest container *)

(** X9. When one of the first four ancestors of a marker is a container, the
    row is read off the nearest such ancestor. *)
Theorem nearest_container_gives_the_row
        (cls : Bs4.string_class) (s : string)
        (below : list Bs4.node) (p : Bs4.node) (above : list Bs4.node) :
  length below < 4 ->
  Forall not_container below ->
  is_container (Bs4.node_name p) = true ->
  row_of_candidate (string_at cls s (below ++ p :: above))
  = Some (row_of_text
            (Bs4.get_text "|" {| Bs4.el_node := p; Bs4.el_up := above |})).
Proof.
  unfold not_container, row_of_candidate, Bs4.name.
  intros Hlen Hall Hp.
  destruct below as [|a [|b [|c [|x below]]]]; simpl in Hlen; try lia;
    repeat match goal with
           | H : Forall _ (_ :: _) |- _ => apply Forall_cons in H as [? H]
           end;
    simpl; unfold Bs4.name; simpl;
    repeat match goal with
           | H : is_container _ = _ |- _ => rewrite H; clear H
           end; reflexivity.
Qed.

Lemma nearest_container_gives_the_row_witness :
  row_of_candidate
    (string_at Bs4.NavigableString "Strong Buy"
       ([Bs4.Tag "span" [Bs4.Text Bs4.NavigableString "Strong Buy"];
         Bs4.Tag "td" [Bs4.Tag "span" [Bs4.Text Bs4.NavigableString "Strong Buy"]]]
        ++ Bs4.Tag "tr"
             [Bs4.Tag "td" [Bs4.Text Bs4.NavigableString "SOLUSDT"];
              Bs4.Tag "td" [Bs4.Tag "span" [Bs4.Text Bs4.NavigableString "Strong Buy"]]]
           :: [Bs4.Tag "div" []]))
  = Some (row_of_text
            (Bs4.get_text "|"
               {| Bs4.el_node :=
                    Bs4.Tag "tr"
                      [Bs4.Tag "td" [Bs4.Text Bs4.NavigableString "SOLUSDT"];
                       Bs4.Tag "td"
                         [Bs4.Tag "span"
                            [Bs4.Text Bs4.NavigableString "Strong Buy"]]];
                  Bs4.el_up := [Bs4.Tag "div" []] |})).
Proof.
  apply nearest_container_gives_the_row.
  - simpl. lia.
  - repeat constructor.
  - reflexivity.
Defined.

(** ** Rows and markers *)

Lemma omap_length_le {A B} (f : A -> option B) (l : list A) :
  length (omap f l) <= length l.
Proof.
  induction l as [|x l IH]; csimpl; [lia|].
  destruct (f x); simpl; lia.
Qed.

(** X10. An extraction returns at most one row for each string of the tree
    that holds the marker; a tree without such a string yields no row. *)
Theorem at_most_one_row_per_marker (soup : Bs4.node) :
  length (parse_rows_from_soup soup)
  <= length (Bs4.find_all_string strong_buy_re soup)
  /\ (Bs4.find_all_string strong_buy_re soup = [] ->
      parse_rows_from_soup soup = []).
Proof.
  assert (H : length (parse_rows_from_soup soup)
              <= length (Bs4.find_all_string strong_buy_re soup)).
  { unfold parse_rows_from_soup, dedup.
    destruct (dedup_loop_tail (extract_rows soup) []) as (tail & -> & Hsub & _).
    simpl. apply sublist_length in Hsub.
    rewrite length_map in *.
    etransitivity; [exact Hsub|]. unfold extract_rows. apply omap_length_le. }
  split; [assumption|].
  intros Hnil. rewrite Hnil in H. simpl in H.
  destruct (parse_rows_from_soup soup); [reflexivity | simpl in H; lia].
Qed.

(** ** Deduplication leaves distinct rows alone *)

Lemma dedup_loop_distinct results : forall seen,
  NoDup (map fst seen ++ map dedup_key results) ->
  dedup_loop seen results
  = seen ++ map (fun r => (dedup_key r, r)) results.
Proof.
  induction results as [|r results IH]; intros seen Hnd; simpl.
  - now rewrite app_nil_r.
  - assert (Hr : seen_has (dedup_key r) seen = false).
    { apply seen_has_false. intros Hin.
      apply NoDup_app in Hnd as (_ & Hdis & _).
      apply (Hdis _ Hin). simpl. apply elem_of_cons. now left. }
    rewrite Hr, IH.
    + now rewrite <- app_assoc.
    + rewrite map_app, <- app_assoc. exact Hnd.
Qed.

(** X11. Rows with pairwise distinct dedup keys pass the deduplication
    unchanged; so deduplicating a second time changes nothing. *)
Theorem dedup_keeps_distinct_rows (rows : list row) :
  (NoDup (map dedup_key rows) -> dedup rows = rows)
  /\ dedup (dedup rows) = dedup rows.
Proof.
  assert (Hfix : forall l, NoDup (map dedup_key l) -> dedup l = l).
  { intros l Hnd. unfold dedup. rewrite dedup_loop_distinct by exact Hnd.
    simpl. rewrite map_map. simpl. apply map_id. }
  split; [apply Hfix|]. apply Hfix. unfold dedup.
  rewrite keyed_map_key.
  - apply dedup_loop_NoDup. constructor.
  - apply dedup_loop_keyed. constructor.
Qed.

(** ** The two calls that leave the program *)

(** X12. [send_telegram_message] never raises and changes no variable of the
    program; it answers [True] exactly when the transport call returned a
    response whose status is not a 4xx or 5xx code. *)
Theorem send_reports_the_transport (w : world) (msg : string) (st : state) :
  exists ok,
    send_telegram_message w msg st = (Returns ok, st)
    /\ (ok = true <->
        exists resp,
          http_post w (length (sent_log st)) msg = Returns resp
          /\ (status_code resp < 400 \/ 600 <= status_code resp)).
Proof.
  unfold send_telegram_message. run.
  destruct (http_post w (length (sent_log st)) msg) as [resp|e].
  - unfold raise_for_status.
    destruct (400 <=? status_code resp) eqn:H1;
      destruct (status_code resp <? 600) eqn:H2; simpl;
      eexists; (split; [reflexivity|]);
      apply Nat.leb_le in H1 || apply Nat.leb_gt in H1;
      apply Nat.ltb_lt in H2 || apply Nat.ltb_ge in H2.
    + split; [discriminate|]. intros (r & [= <-] & Hr). lia.
    + split; [intros _; exists resp; split; [reflexivity | lia] | reflexivity].
    + split; [intros _; exists resp; split; [reflexivity | lia] | reflexivity].
    + split; [intros _; exists resp; split; [reflexivity | lia] | reflexivity].
  - exists false. split; [reflexivity|].
    split; [discriminate|]. now intros (r & [=] & _).
Qed.

(** X13. [lightweight_scrape] changes no variable of the program. It returns
    rows exactly when the request returned a response whose status is not
    a 4xx or 5xx code and the parser returned a tree, and the rows are
    then the rows extracted from that tree; in every other case it
    raises. *)
Theorem scrape_returns_rows_of_good_responses
        (w : world) (st : state) (rows : list row) :
  snd (lightweight_scrape w st) = st
  /\ (fst (lightweight_scrape w st) = Returns rows <->
      exists resp soup,
        http_get w = Returns resp
        /\ (status_code resp < 400 \/ 600 <= status_code resp)
        /\ parse_html w (text resp) = Returns soup
        /\ rows = parse_rows_from_soup soup).
Proof.
  rewrite lightweight_scrape_spec. simpl. split; [reflexivity|].
  unfold scrape_outcome, raise_for_status.
  destruct (http_get w) as [resp|e].
  - destruct (400 <=? status_code resp) eqn:H1;
      destruct (status_code resp <? 600) eqn:H2; simpl;
      apply Nat.leb_le in H1 || apply Nat.leb_gt in H1;
      apply Nat.ltb_lt in H2 || apply Nat.ltb_ge in H2;
      try (destruct (parse_html w (text resp)) as [soup|e] eqn:Hp);
      split;
      try discriminate;
      try (intros [= <-]; exists resp, soup; repeat split; auto; lia);
      try (intros (r & sp & [= <-] & Hr & Hs & ->); congruence || lia).
  - split; [discriminate|]. now intros (r & sp & [=] & _).
Qed.

(** ** A visible marker passes the defensive filter *)

Lemma node_forall_ind (P : Bs4.node -> Prop) :
  (forall cls s, P (Bs4.Text cls s)) ->
  (forall nm kids, Forall P kids -> P (Bs4.Tag nm kids)) ->
  forall n, P n.
Proof.
  intros Htext Htag. fix IH 1. intros [cls s|nm kids]; [apply Htext|].
  apply Htag. induction kids as [|k kids IHk]; constructor;
    [apply IH | apply IHk].
Qed.

(** Every string found below a node sits under a chain of ancestors that
    all hold it among their descendants. *)
Lemma strings_below_chain n : forall up e,
  e ∈ Bs4.strings_below up n ->
  exists cls s chain,
    Bs4.el_node e = Bs4.Text cls s
    /\ Bs4.el_up e = chain ++ up
    /\ (cls, s) ∈ Bs4.descendant_strings n
    /\ Forall (fun a => (cls, s) ∈ Bs4.descendant_strings a
                        /\ exists nm kids, a = Bs4.Tag nm kids) chain.
Proof.
  induction n as [cls s|nm kids IH] using node_forall_ind; intros up e He.
  - simpl in He. apply list_elem_of_singleton in He. subst e.
    exists cls, s, []. simpl. repeat split; [|constructor].
    now apply list_elem_of_singleton.
  - simpl in He. apply list_elem_of_In, in_flat_map in He as (kid & Hkid & He).
    rewrite Forall_forall in IH. apply list_elem_of_In in Hkid, He.
    destruct (IH kid Hkid _ _ He) as (cls & s & chain & Hn & Hup & Hd & Hch).
    assert (Hhere : (cls, s) ∈ Bs4.descendant_strings (Bs4.Tag nm kids)).
    { simpl. apply list_elem_of_In, in_flat_map. exists kid.
      split; now apply list_elem_of_In. }
    exists cls, s, (chain ++ [Bs4.Tag nm kids]).
    rewrite <- app_assoc. repeat split; try assumption.
    apply Forall_app. split; [assumption|]. repeat constructor; eauto.
Qed.

(** The walk from a string ends, if anywhere, at one of its ancestors. *)
Lemma climb_ends_at_an_ancestor cls s up p :
  climb 5 (Some (string_at cls s up)) = Some p -> Bs4.el_node p ∈ up.
Proof.
  unfold Bs4.name.
  destruct up as [|p1 [|p2 [|p3 [|p4 [|p5 up]]]]]; simpl;
    repeat match goal with
           | |- context [is_container ?x] => destruct (is_container x)
           end; simpl; try discriminate; intros [= <-]; simpl;
    repeat (first [apply list_elem_of_here | apply list_elem_of_further]).
Qed.

Lemma join_holds sep x : forall l,
  x ∈ l -> exists n, occurs_at n x (Str.join sep l).
Proof.
  induction l as [|y l IH]; intros Hx; [inversion Hx|].
  apply elem_of_cons in Hx as [->|Hx].
  - destruct l as [|z l]; simpl.
    + exists 0, "", "". now rewrite str_app_nil_r.
    + exists 0, "", (sep +:+ Str.join sep (z :: l)). now split.
  - destruct (IH Hx) as (n & a & b & Heq & Hlen).
    destruct l as [|z l]; [inversion Hx|].
    change (Str.join sep (y :: z :: l))
      with (y +:+ sep +:+ Str.join sep (z :: l)).
    rewrite Heq. exists (String.length ((y +:+ sep) +:+ a)), ((y +:+ sep) +:+ a), b.
    now rewrite !str_app_assoc.
Qed.

Lemma occurs_within n w x m t :
  occurs_at n w x -> occurs_at m x t -> exists k, occurs_at k w t.
Proof.
  intros (a & b & -> & _) (a' & b' & -> & _).
  exists (String.length (a' +:+ a)), (a' +:+ a), (b +:+ b').
  now rewrite !str_app_assoc.
Qed.

Lemma found_iff r s :
  Re.found r s = true <-> exists n w, occurs_at n w s /\ Re.matches r w.
Proof.
  unfold Re.found. destruct (Re.search r s) as [w|] eqn:H.
  - apply search_first in H as (Hm & n & Hocc & _). split; eauto.
  - apply search_none in H. split; [discriminate|].
    intros (n & w & Hocc & Hm). now destruct (H n w Hocc).
Qed.

Lemma rstrip_cons_kept c s :
  not_space c = true -> Str.rstrip (String c s) = String c (Str.rstrip s).
Proof.
  unfold not_space. intros Hc. simpl.
  destruct (Str.rstrip s); [|reflexivity].
  now destruct (Str.isspace c).
Qed.

Lemma rstrip_app_kept a : forall t,
  Str.rstrip t <> "" -> Str.rstrip (a +:+ t) = a +:+ Str.rstrip t.
Proof.
  induction a as [|x a IH]; intros t Ht; [reflexivity|].
  simpl. rewrite (IH _ Ht).
  destruct (a +:+ Str.rstrip t) eqn:E; [|reflexivity].
  destruct a; simpl in E; [contradiction | discriminate].
Qed.

Lemma rstrip_keeps pre w c post :
  not_space c = true ->
  exists post',
    Str.rstrip (pre +:+ (w +:+ String c "") +:+ post)
    = pre +:+ (w +:+ String c "") +:+ post'.
Proof.
  intros Hc. exists (Str.rstrip post).
  pose proof (rstrip_cons_kept c post Hc) as Hr.
  rewrite !str_app_assoc. simpl.
  assert (Hw : Str.rstrip (w +:+ String c post)
               = w +:+ String c (Str.rstrip post)).
  { rewrite rstrip_app_kept; rewrite Hr; [reflexivity | discriminate]. }
  rewrite rstrip_app_kept; rewrite Hw; [reflexivity|].
  destruct w; discriminate.
Qed.

Lemma lstrip_keeps c w post : forall pre,
  not_space c = true ->
  exists pre',
    Str.lstrip (pre +:+ String c w +:+ post) = pre' +:+ String c w +:+ post.
Proof.
  unfold not_space. intros pre Hc. induction pre as [|x pre IH]; simpl.
  - exists "". simpl. now destruct (Str.isspace c).
  - destruct (Str.isspace x); [exact IH|]. now exists (String x pre).
Qed.

Lemma snoc_form s : s <> "" -> exists m c, s = m +:+ String c "".
Proof.
  induction s as [|x s IH]; intros H; [contradiction|].
  destruct s as [|y s].
  - now exists "", x.
  - destruct IH as (m & c & Hm); [discriminate|].
    exists (String x m), c. simpl. now rewrite Hm.
Qed.

Lemma snoc_inj a : forall b c d,
  a +:+ String c "" = b +:+ String d "" -> a = b /\ c = d.
Proof.
  induction a as [|x a IH]; intros [|y b] c d H; simpl in H.
  - injection H as ->. now split.
  - injection H as -> H. destruct b; discriminate.
  - injection H as -> H. destruct a; discriminate.
  - injection H as -> H. destruct (IH _ _ _ H) as [-> ->]. now split.
Qed.

Lemma nonempty_spec r : forall w,
  nonempty r = true -> Re.matches r w -> w <> "".
Proof.
  induction r as [|p|r1 IH1 r2 IH2|r1 IH1 r2 IH2|r IH|p lo hi];
    intros w Hn Hm; simpl in Hn; try discriminate.
  - inversion Hm; subst. discriminate.
  - inversion Hm as [| |? ? w1 w2 Hm1 Hm2| | | | |]; subst.
    apply orb_prop in Hn as [Hn|Hn].
    + specialize (IH1 _ Hn Hm1). now destruct w1.
    + specialize (IH2 _ Hn Hm2). destruct w1; [assumption | discriminate].
  - apply andb_prop in Hn as [Hn1 Hn2]. inversion Hm; subst; auto.
  - inversion Hm; subst. intros ->. simpl in *.
    destruct lo; [discriminate | lia].
Qed.

Lemma head_in_spec q r : forall w c w',
  head_in q r = true -> Re.matches r w -> w = String c w' -> q c = true.
Proof.
  induction r as [|p|r1 IH1 r2 IH2|r1 IH1 r2 IH2|r IH|p lo hi];
    intros w c w' Hq Hm; simpl in Hq.
  - inversion Hm. discriminate.
  - inversion Hm as [|? c0 Hc| | | | | |]. intros [= <- _].
    now apply (class_sub_spec p).
  - apply andb_prop in Hq as [H1 H2].
    inversion Hm as [| |? ? w1 w2 Hm1 Hm2| | | | |]. intros Hw.
    destruct w1 as [|x w1]; simpl in Hw.
    + apply orb_prop in H2 as [H2|H2].
      * now destruct (nonempty_spec _ _ H2 Hm1).
      * now apply (IH2 _ _ _ H2 Hm2 Hw).
    + injection Hw as -> _. now apply (IH1 _ _ _ H1 Hm1 eq_refl).
  - apply andb_prop in Hq as [H1 H2]. inversion Hm; eauto.
  - inversion Hm; [eauto | discriminate].
  - inversion Hm as [| | | | | | |? ? ? ? Ha _ _]. intros Hw.
    rewrite Hw in Ha. simpl in Ha.
    apply andb_prop in Ha as [Hc _]. now apply (class_sub_spec p).
Qed.

Lemma last_in_spec q r : forall w c w',
  last_in q r = true -> Re.matches r w -> w = w' +:+ String c "" ->
  q c = true.
Proof.
  induction r as [|p|r1 IH1 r2 IH2|r1 IH1 r2 IH2|r IH|p lo hi];
    intros w c w' Hq Hm; simpl in Hq.
  - inversion Hm. destruct w'; discriminate.
  - inversion Hm as [|? c0 Hc| | | | | |]. intros Hw.
    destruct w' as [|x w']; simpl in Hw.
    + injection Hw as <-. now apply (class_sub_spec p).
    + injection Hw as _ Hw. destruct w'; discriminate.
  - apply andb_prop in Hq as [H2 H1].
    inversion Hm as [| |? ? w1 w2 Hm1 Hm2| | | | |]. intros Hw.
    destruct w2 as [|x w2].
    + rewrite str_app_nil_r in Hw. apply orb_prop in H1 as [H1|H1].
      * now destruct (nonempty_spec _ _ H1 Hm2).
      * now apply (IH1 _ _ _ H1 Hm1 Hw).
    + destruct (snoc_form (String x w2)) as (m & d & Hs); [discriminate|].
      rewrite Hs, <- str_app_assoc in Hw. apply snoc_inj in Hw as [_ ->].
      now apply (IH2 _ _ _ H2 Hm2 Hs).
  - apply andb_prop in Hq as [H1 H2]. inversion Hm; eauto.
  - inversion Hm; [eauto|]. destruct w'; discriminate.
  - inversion Hm as [| | | | | | |? ? ? ? Ha _ _]. intros Hw.
    rewrite Hw, all_chars_app in Ha. apply andb_prop in Ha as [_ Ha].
    simpl in Ha. apply andb_prop in Ha as [Hc _].
    now apply (class_sub_spec p).
Qed.

(** A word of the marker pattern that occurs in a string occurs in the
    stripped string as well. *)
Lemma strip_keeps_marker s n w :
  Re.matches strong_buy_re w -> occurs_at n w s ->
  exists n', occurs_at n' w (Str.strip s).
Proof.
  intros Hm (pre & post & -> & _).
  pose proof (nonempty_spec strong_buy_re w eq_refl Hm) as Hne.
  destruct w as [|c0 w0]; [contradiction|].
  pose proof (head_in_spec not_space strong_buy_re _ _ _ eq_refl Hm eq_refl) as H0.
  destruct (snoc_form (String c0 w0)) as (m & c1 & Hs); [discriminate|].
  pose proof (last_in_spec not_space strong_buy_re _ _ _ eq_refl Hm Hs) as H1.
  unfold Str.strip.
  destruct (lstrip_keeps c0 w0 post pre H0) as [pre' ->].
  rewrite Hs. destruct (rstrip_keeps pre' m c1 post H1) as [post' ->].
  now exists (String.length pre'), pre', post'.
Qed.

(** X14. A marker in a string whose class counts as text of the element the
    walk ends at yields a row that passes the defensive filter: the
    filter only drops rows whose marker is not part of the flattened
    text. *)
Theorem visible_marker_passes_the_filter
        (soup : Bs4.node) (e p : Bs4.element)
        (cls : Bs4.string_class) (s : string) :
  e ∈ Bs4.find_all_string strong_buy_re soup ->
  Bs4.el_node e = Bs4.Text cls s ->
  climb 5 (Some e) = Some p ->
  visible_in cls p = true ->
  exists r, row_of_candidate e = Some r /\ strong_buy_filter [r] = [r].
Proof.
  intros He Hnode Hclimb Hvis.
  unfold Bs4.find_all_string in He.
  apply list_elem_of_In, filter_In in He as [He Hfound].
  rewrite Hnode in Hfound. apply list_elem_of_In in He.
  destruct (strings_below_chain _ _ _ He) as (cls' & s' & chain & Hn & Hup & _ & Hch).
  rewrite Hnode in Hn. injection Hn as <- <-. rewrite app_nil_r in Hup.
  destruct e as [node up]. simpl in Hnode, Hup. subst node up.
  apply climb_ends_at_an_ancestor in Hclimb as Hin.
  rewrite Forall_forall in Hch.
  destruct (Hch _ Hin) as (Hdesc & nm & kids & Hp).
  exists (row_of_text (Bs4.get_text "|" p)). split.
  { unfold row_of_candidate. now rewrite Hclimb. }
  assert (Hctx : Re.found strong_buy_re (Bs4.get_text "|" p) = true).
  { apply found_iff in Hfound as (n & w & Hocc & Hm).
    destruct (strip_keeps_marker _ _ _ Hm Hocc) as [n' Hocc'].
    assert (Hseg : Str.strip s ∈ Bs4.all_strings_stripped (Bs4.el_node p)).
    { unfold visible_in in Hvis. rewrite Hp in *. simpl.
      apply list_elem_of_omap. exists (cls, s). split; [exact Hdesc|].
      simpl. rewrite Hvis.
      destruct (Str.strip s) eqn:E; [|reflexivity].
      destruct Hocc' as (a & b & Heq & _).
      apply nonempty_spec in Hm; [|reflexivity].
      destruct a; [destruct w; [contradiction | discriminate] | discriminate]. }
    destruct (join_holds "|" _ _ Hseg) as [k Hk].
    destruct (occurs_within _ _ _ _ _ Hocc' Hk) as [j Hj].
    apply found_iff. eauto. }
  unfold strong_buy_filter. simpl. now rewrite Hctx.
Qed.

Lemma visible_marker_passes_the_filter_witness :
  exists r, row_of_candidate bnb_marker = Some r /\ strong_buy_filter [r] = [r].
Proof.
  apply (visible_marker_passes_the_filter bnb_soup bnb_marker bnb_container
           Bs4.NavigableString " Strong Buy ").
  - vm_compute. apply list_elem_of_here.
  - reflexivity.
  - reflexivity.
  - reflexivity.
Defined.

(** ** The symbol of a row is a token or the first segment *)

Lemma symbol_word_bounds w :
  Re.matches symbol_re w -> 2 <= String.length w <= 25.
Proof.
  intros H. split; [now apply symbol_word_length|].
  unfold symbol_re in H.
  inversion H as [| | |? ? ? Hl|? ? ? Hr| | |]; subst; clear H.
  - inversion Hl as [| |? ? w1 w2 H1 H2| | | | |]; subst; clear Hl.
    inversion H1 as [| | | | | | |? ? ? ? _ _ Hhi]; subst; clear H1.
    inversion H2 as [| |? ? o u Ho Hu| | | | |]; subst; clear H2.
    assert (String.length o <= 1).
    { inversion Ho as [| | | | |? ? Hc|?|]; subst; [|simpl; lia].
      inversion Hc; subst. simpl. lia. }
    assert (String.length u = 4).
    { simpl in Hu.
      repeat match goal with
             | H : Re.matches (Re.Seq _ _) _ |- _ => inversion H; subst; clear H
             | H : Re.matches (Re.chr _) _ |- _ => inversion H; subst; clear H
             end. reflexivity. }
    simpl in Hhi. rewrite !str_length_app. lia.
  - inversion Hr as [| | | | | | |? ? ? ? _ _ Hhi]; subst. simpl in Hhi. lia.
Qed.

Lemma many_longest {A} p : forall s lo hi (k : string -> option A) x,
  Re.many p lo hi s k = Some x ->
  exists w s',
    s = w +:+ s' /\ Re.all_chars p w = true
    /\ lo <= String.length w /\ Re.within hi (String.length w)
    /\ k s' = Some x
    /\ forall w2 s2,
         s = w2 +:+ s2 -> Re.all_chars p w2 = true ->
         lo <= String.length w2 -> Re.within hi (String.length w2) ->
         String.length w < String.length w2 -> k s2 = None.
Proof.
  induction s as [|c s IH]; intros lo hi k x H.
  - simpl in H. destruct lo; [|discriminate].
    exists "", "". repeat split; simpl; auto; [destruct hi; simpl; lia|].
    intros w2 s2 Hs _ _ _ Hlen. destruct w2; [simpl in Hlen; lia | discriminate].
  - simpl in H.
    destruct (p c && Re.has_room hi) eqn:Hc.
    + destruct (Re.many p (pred lo) (Re.less_room hi) s k) eqn:Hm.
      * injection H as ->. apply andb_prop in Hc as [Hp Hr].
        destruct (IH _ _ _ _ Hm) as (w & s' & -> & Hall & Hlo & Hhi & Hk & Hmax).
        exists (String c w), s'. simpl. rewrite Hp, Hall.
        repeat split; auto; [lia | |].
        { destruct hi as [[|h]|]; simpl in *; try discriminate; auto; lia. }
        intros w2 s2 Hs Hall2 Hlo2 Hhi2 Hlen.
        destruct w2 as [|c2 w2]; [simpl in Hlen; lia|].
        simpl in Hs, Hall2, Hlo2, Hhi2, Hlen. injection Hs as <- Hs.
        apply andb_prop in Hall2 as [_ Hall2].
        apply (Hmax w2 s2 Hs Hall2); [lia | | lia].
        destruct hi as [h|]; simpl in *; auto; lia.
      * destruct lo; [|discriminate].
        exists "", (String c s). repeat split; simpl; auto;
          [destruct hi; simpl; lia|].
        intros w2 s2 Hs Hall2 _ Hhi2 Hlen.
        destruct w2 as [|c2 w2]; [simpl in Hlen; lia|].
        simpl in Hs, Hall2, Hhi2. injection Hs as <- Hs.
        apply andb_prop in Hall2 as [_ Hall2].
        apply (many_complete _ _ _ _ _ Hm w2 s2 Hs Hall2); [simpl; lia|].
        destruct hi as [h|]; simpl in *; auto; lia.
    + destruct lo; [|discriminate].
      exists "", (String c s). repeat split; simpl; auto;
        [destruct hi; simpl; lia|].
      intros w2 s2 Hs Hall2 _ Hhi2 Hlen.
      destruct w2 as [|c2 w2]; [simpl in Hlen; lia|].
      simpl in Hs, Hall2, Hhi2. injection Hs as <- Hs.
      apply andb_prop in Hall2 as [Hp2 _]. rewrite Hp2 in Hc. simpl in Hc.
      destruct hi as [[|h]|]; simpl in *; try discriminate; lia.
Qed.

Lemma usdt_tail_words u :
  Re.matches (Re.Seq (Re.Opt (Re.chr "/")) (Re.lit "USDT")) u ->
  u = "USDT" \/ u = "/USDT".
Proof.
  intros H. inversion H as [| |? ? o t Ho Ht| | | | |]; subst; clear H.
  assert (t = "USDT") as ->.
  { simpl in Ht.
    repeat match goal with
           | H : Re.matches (Re.Seq _ _) _ |- _ => inversion H; subst; clear H
           | H : Re.matches (Re.chr _) _ |- _ => inversion H; subst; clear H
           | H : Ascii.eqb _ _ = true |- _ => apply Ascii.eqb_eq in H; subst
           end. reflexivity. }
  inversion Ho as [| | | | |? ? Hc|?|]; subst; [|now left].
  inversion Hc as [|? c Hc'| | | | | |]; subst.
  apply Ascii.eqb_eq in Hc'. subst c. now right.
Qed.

Lemma same_prefix a : forall b x y,
  a +:+ x = b +:+ y -> String.length a = String.length b -> a = b.
Proof. intros b x y H Hlen. now destruct (app_same_length _ _ _ _ H Hlen). Qed.

(** Where the first alternative matches, the matcher takes its longest
    word. *)
Lemma usdt_match_is_longest s rest :
  Re.go symbol_re_usdt s (fun x => Some x) = Some rest ->
  exists w, s = w +:+ rest /\ longest_prefix symbol_re_usdt s w.
Proof.
  unfold symbol_re_usdt.
  set (tail := Re.Seq (Re.Opt (Re.chr "/")) (Re.lit "USDT")). intros H.
  change (Re.many symbol_char 2 (Some 20) s
            (fun s' => Re.go tail s' (fun x => Some x)) = Some rest) in H.
  apply many_longest in H
    as (w1 & s1 & -> & Hall & Hlo & Hhi & Hk & Hmax).
  destruct (go_sound _ _ _ _ Hk) as (u & rest' & -> & Hu & [= ->]).
  exists (w1 +:+ u). rewrite str_app_assoc. split; [reflexivity|].
  split; [|split].
  - constructor; [now constructor | assumption].
  - exists rest. now rewrite str_app_assoc.
  - intros w' post' Hm' Hs.
    inversion Hm' as [| |? ? w2 u2 Hw2 Hu2| | | | |]; subst.
    inversion Hw2 as [| | | | | | |? ? ? ? Hall2 Hlo2 Hhi2]; subst.
    rewrite str_app_assoc in Hs. rewrite !str_length_app.
    destruct (Nat.lt_trichotomy (String.length w1) (String.length w2))
      as [Hlt|[Heq|Hgt]].
    + pose proof (Hmax w2 (u2 +:+ post') Hs Hall2 Hlo2 Hhi2 Hlt) as Hnone.
      now pose proof (go_complete _ _ _ Hnone u2 post' eq_refl Hu2).
    + destruct (app_same_length _ _ _ _ Hs Heq) as [-> Hrest].
      destruct (usdt_tail_words _ Hu) as [->| ->];
        destruct (usdt_tail_words _ Hu2) as [->| ->];
        simpl in *; try lia; discriminate.
    + destruct (usdt_tail_words _ Hu) as [->| ->];
        destruct (usdt_tail_words _ Hu2) as [->| ->]; simpl; lia.
Qed.

Lemma token_match_is_longest s rest :
  Re.go symbol_re_token s (fun x => Some x) = Some rest ->
  exists w, s = w +:+ rest /\ longest_prefix symbol_re_token s w.
Proof.
  unfold symbol_re_token. intros H.
  change (Re.many symbol_char 2 (Some 20) s (fun x => Some x) = Some rest) in H.
  apply many_longest in H
    as (w & s' & -> & Hall & Hlo & Hhi & [= ->] & Hmax).
  exists w. split; [reflexivity|]. split; [now constructor|].
  split; [now exists rest|].
  intros w' post' Hm' Hs.
  inversion Hm' as [| | | | | | |? ? ? ? Hall2 Hlo2 Hhi2]; subst.
  destruct (Nat.le_gt_cases (String.length w') (String.length w))
    as [Hle|Hlt]; [assumption|].
  now pose proof (Hmax w' post' Hs Hall2 Hlo2 Hhi2 Hlt).
Qed.

Lemma search_rest_leftmost r : forall txt w rest,
  Re.search_rest r txt = Some (w, rest) ->
  exists pre s,
    txt = pre +:+ s
    /\ Re.go r s (fun x => Some x) = Some rest
    /\ s = w +:+ rest
    /\ forall n' w', n' < String.length pre -> occurs_at n' w' txt ->
                     ~ Re.matches r w'.
Proof.
  induction txt as [|c txt IH]; intros w rest H;
    rewrite search_rest_unfold in H;
    destruct (Re.go r _ (fun x => Some x)) as [rest0|] eqn:Hgo;
    try discriminate.
  - destruct (go_here_some _ _ _ Hgo) as (w0 & Hs & _ & Htake).
    rewrite Htake in H. injection H as <- <-.
    exists "", "". repeat split; auto. simpl. intros; lia.
  - destruct (go_here_some _ _ _ Hgo) as (w0 & Hs & _ & Htake).
    rewrite Htake in H. injection H as <- <-.
    exists "", (String c txt). repeat split; auto. simpl. intros; lia.
  - destruct (IH _ _ H) as (pre & s & -> & Hgo' & Hs & Hleft).
    exists (String c pre), s. repeat split; auto.
    intros [|n'] w' Hlt Hocc.
    + now apply (go_here_none _ _ Hgo).
    + apply occurs_at_cons in Hocc. apply (Hleft n'); [simpl in Hlt; lia | assumption].
Qed.

Lemma longest_prefix_unique r s w1 w2 :
  longest_prefix r s w1 -> longest_prefix r s w2 -> w1 = w2.
Proof.
  intros (Hm1 & [p1 Hs1] & Hmax1) (Hm2 & [p2 Hs2] & Hmax2).
  pose proof (Hmax1 _ _ Hm2 Hs2). pose proof (Hmax2 _ _ Hm1 Hs1).
  apply (same_prefix w1 w2 p1 p2); [congruence | lia].
Qed.

Lemma longest_prefix_occurs r s w pre :
  longest_prefix r s w -> occurs_at (String.length pre) w (pre +:+ s).
Proof. intros (_ & [post ->] & _). now exists pre, post. Qed.

Lemma symbol_re_alternatives w :
  Re.matches symbol_re w <->
  Re.matches symbol_re_usdt w \/ Re.matches symbol_re_token w.
Proof.
  unfold symbol_re. fold symbol_re_usdt. fold symbol_re_token. split.
  - intros H. inversion H; subst; auto.
  - intros [H|H]; [now apply Re.M_alt_l | now apply Re.M_alt_r].
Qed.

Lemma symbol_match_word text w : symbol_match text w -> Re.matches symbol_re w.
Proof.
  intros (pre & s & _ & _ & [(Hm & _)|[_ (Hm & _)]]);
    apply symbol_re_alternatives; auto.
Qed.

Lemma symbol_match_unique text w1 w2 :
  symbol_match text w1 -> symbol_match text w2 -> w1 = w2.
Proof.
  intros H1 H2.
  pose proof (symbol_match_word _ _ H1) as Hm1.
  pose proof (symbol_match_word _ _ H2) as Hm2.
  destruct H1 as (pre1 & s1 & -> & Hleft1 & Hw1).
  destruct H2 as (pre2 & s2 & Heq & Hleft2 & Hw2).
  assert (Hocc1 : occurs_at (String.length pre1) w1 (pre1 +:+ s1)).
  { destruct Hw1 as [H|[_ H]]; eapply longest_prefix_occurs; eassumption. }
  assert (Hocc2 : occurs_at (String.length pre2) w2 (pre1 +:+ s1)).
  { rewrite Heq. destruct Hw2 as [H|[_ H]];
      eapply longest_prefix_occurs; eassumption. }
  assert (Hlen : String.length pre1 = String.length pre2).
  { destruct (Nat.lt_trichotomy (String.length pre1) (String.length pre2))
      as [Hlt|[Hlen|Hlt]]; [|assumption|].
    - now destruct (Hleft2 _ _ Hlt Hocc1).
    - now destruct (Hleft1 _ _ Hlt Hocc2). }
  destruct (app_same_length _ _ _ _ Heq Hlen) as [-> ->].
  destruct Hw1 as [H1|[Hno1 H1]]; destruct Hw2 as [H2|[Hno2 H2]].
  - eapply longest_prefix_unique; eassumption.
  - destruct H1 as (Hm & [post Hs] & _). now destruct (Hno2 _ post Hm).
  - destruct H2 as (Hm & [post Hs] & _). now destruct (Hno1 _ post Hm).
  - eapply longest_prefix_unique; eassumption.
Qed.

Lemma search_symbol_match text g :
  Re.search symbol_re text = Some g -> symbol_match text g.
Proof.
  unfold Re.search.
  destruct (Re.search_rest symbol_re text) as [[w rest]|] eqn:H;
    simpl; [|discriminate].
  intros [= <-].
  destruct (search_rest_leftmost _ _ _ _ H) as (pre & s & -> & Hgo & Hs & Hleft).
  exists pre, s. split; [reflexivity|]. split; [assumption|].
  change (match Re.go symbol_re_usdt s (fun x => Some x) with
          | Some x => Some x
          | None => Re.go symbol_re_token s (fun x => Some x)
          end = Some rest) in Hgo.
  destruct (Re.go symbol_re_usdt s (fun x => Some x)) as [rest1|] eqn:H1.
  - injection Hgo as ->. left.
    destruct (usdt_match_is_longest _ _ H1) as (w' & Hs' & Hlong).
    rewrite Hs in Hs'.
    assert (w = w') as ->; [|assumption].
    apply (f_equal String.length) in Hs' as Hlen.
    rewrite !str_length_app in Hlen.
    apply (same_prefix w w' rest rest Hs'). lia.
  - right. split.
    + intros w' post' Hm' ->.
      now pose proof (go_complete _ _ _ H1 w' post' eq_refl Hm').
    + destruct (token_match_is_longest _ _ Hgo) as (w' & Hs' & Hlong).
      rewrite Hs in Hs'.
      assert (w = w') as ->; [|assumption].
      apply (f_equal String.length) in Hs' as Hlen.
      rewrite !str_length_app in Hlen.
      apply (same_prefix w w' rest rest Hs'). lia.
Qed.

(** X15. The symbol field is the match of the symbol pattern in the
    flattened text: at the leftmost place where a token begins, the
    longest token of 2 to 20 characters followed by [USDT] or [/USDT],
    and the longest token of 2 to 20 characters when there is none; it
    has 2 to 25 characters, and no other word fits this description.
    When the text holds no token the symbol is the text before the first
    pipe, and ["unknown"] for the empty text. *)
Theorem symbol_is_token_or_first_segment (text : string) :
  (symbol_match text (symbol (row_of_text text))
   /\ (forall w, symbol_match text w -> w = symbol (row_of_text text))
   /\ 2 <= String.length (symbol (row_of_text text)) <= 25)
  \/ (no_match symbol_re text
      /\ symbol (row_of_text text)
         = if Str.truthy text then Str.before "|" text else "unknown").
Proof.
  unfold row_of_text. simpl.
  destruct (Re.search symbol_re text) as [g|] eqn:H.
  - left. pose proof (search_symbol_match _ _ H) as Hsym.
    split; [assumption|]. split.
    + intros w Hw. now apply (symbol_match_unique text).
    + apply symbol_word_bounds. now apply (symbol_match_word text).
  - right. split; [now apply search_none | reflexivity].
Qed.

(** ** A new day *)

Lemma cycle_events_symbols w st ev :
  ev ∈ cycle_events w st ->
  exists it, it ∈ filtered_of w /\ ev_symbol ev = symbol it.
Proof.
  unfold cycle_events. rewrite after_cycle_spec.
  destruct (utcnow_date w) as [d|e].
  - destruct (notify_loop_events w d (filtered_of w) [] st)
      as (evs & Hlog & _ & Hev).
    assert (Hdrop : drop (length (sent_log st))
      (sent_log
         (let st1 := with_results (filtered_of w)
                       (snd (notify_loop w d (filtered_of w) [] st)) in
          match clock w with
          | Returns t => with_time t st1
          | Raises _ => st1
          end)) = evs).
    { destruct (clock w); simpl; rewrite Hlog; apply drop_app_length. }
    rewrite Hdrop. intros H. destruct (Hev ev H) as (it & Hit & ->). eauto.
  - rewrite drop_all. intros H. inversion H.
Qed.

Lemma filtered_symbol_no_pipe w it :
  it ∈ filtered_of w -> Re.all_chars no_pipe (symbol it) = true.
Proof.
  intros Hit. destruct (filtered_of_rows w) as [Hnil|[soup Hs]].
  - rewrite Hnil in Hit. inversion Hit.
  - rewrite Hs in Hit. unfold strong_buy_filter in Hit.
    apply list_elem_of_In, filter_In in Hit as [Hit _].
    apply list_elem_of_In, parse_rows_shape in Hit. rewrite Hit.
    apply symbol_no_pipe.
Qed.

Lemma trace_symbols_no_pipe ws : forall st,
  (forall ev, ev ∈ sent_log st -> Re.all_chars no_pipe (ev_symbol ev) = true) ->
  forall ev, ev ∈ sent_log (after_cycles ws st) ->
             Re.all_chars no_pipe (ev_symbol ev) = true.
Proof.
  induction ws as [|w ws IH]; intros st Hst; [exact Hst|].
  rewrite after_cycles_cons. apply IH. intros ev Hev.
  destruct (cycle_ledger w st) as (evs & Hlog & Hevs & _).
  rewrite Hlog in Hev. apply elem_of_app in Hev as [Hev|Hev]; [now apply Hst|].
  rewrite <- Hevs in Hev.
  destruct (cycle_events_symbols _ _ _ Hev) as (it & Hit & ->).
  now apply (filtered_symbol_no_pipe w).
Qed.

Lemma ledger_exact ws : forall st,
  (forall k, k ∈ last_sent st <->
     exists ev, ev ∈ sent_log st /\ event_key ev = k /\ ev_ok ev = true) ->
  forall k, k ∈ last_sent (after_cycles ws st) <->
     exists ev, ev ∈ sent_log (after_cycles ws st)
                /\ event_key ev = k /\ ev_ok ev = true.
Proof.
  induction ws as [|w ws IH]; intros st Hst; [exact Hst|].
  rewrite after_cycles_cons. apply IH. intros k.
  destruct (cycle_ledger w st) as (evs & -> & _ & Hl & _).
  rewrite Hl, Hst. setoid_rewrite elem_of_app. split.
  - intros [(ev & H)|(ev & H)]; exists ev; tauto.
  - intros (ev & [H|H] & H'); [left | right]; exists ev; tauto.
Qed.

Lemma cycle_events_rows w st ev :
  ev ∈ cycle_events w st ->
  exists it, it ∈ filtered_of w
             /\ ev_symbol ev = symbol it
             /\ ev_text ev = message (symbol it) (change_24h it) (volume_24h it).
Proof.
  unfold cycle_events. rewrite after_cycle_spec.
  destruct (utcnow_date w) as [d|e].
  - destruct (notify_loop_events w d (filtered_of w) [] st)
      as (evs & Hlog & _ & Hev).
    assert (Hdrop : drop (length (sent_log st))
      (sent_log
         (let st1 := with_results (filtered_of w)
                       (snd (notify_loop w d (filtered_of w) [] st)) in
          match clock w with
          | Returns t => with_time t st1
          | Raises _ => st1
          end)) = evs).
    { destruct (clock w); simpl; rewrite Hlog; apply drop_app_length. }
    rewrite Hdrop. intros H. destruct (Hev ev H) as (it & Hit & ->).
    exists it. now repeat split.
  - rewrite drop_all. intros H. inversion H.
Qed.

Lemma filtered_of_NoDup w : NoDup (dedup_key <$> filtered_of w).
Proof.
  destruct (filtered_of_rows w) as [->|[soup ->]]; [constructor|].
  apply (sublist_NoDup _ (dedup_key <$> parse_rows_from_soup soup)).
  - unfold parse_rows_from_soup, dedup.
    change (NoDup (map dedup_key (map snd (dedup_loop [] (extract_rows soup))))).
    rewrite keyed_map_key.
    + apply dedup_loop_NoDup. constructor.
    + apply dedup_loop_keyed. constructor.
  - apply fmap_sublist, filter_sublist.
Qed.

Lemma NoDup_fmap_eq {A B} (f : A -> B) (l : list A) x y :
  NoDup (f <$> l) -> x ∈ l -> y ∈ l -> f x = f y -> x = y.
Proof.
  induction l as [|a l IH]; intros Hnd Hx Hy Hf; [inversion Hx|].
  rewrite fmap_cons in Hnd. apply NoDup_cons in Hnd as [Ha Hnd].
  apply elem_of_cons in Hx as [->|Hx]; apply elem_of_cons in Hy as [->|Hy].
  - reflexivity.
  - destruct Ha. rewrite Hf. now apply list_elem_of_fmap_2.
  - destruct Ha. rewrite <- Hf. now apply list_elem_of_fmap_2.
  - now apply IH.
Qed.

(** X16. In a process started from the initial state, a cycle on a day on
    which no send has succeeded yet makes, for every filtered row, a send
    call that carries the symbol of the row and the day, so what was
    announced on earlier days is announced again. Rows that have the same
    symbol, which only rows with the empty symbol can, may share one
    call; for a row with a symbol the message of the call is the message
    of the row. *)
Theorem new_day_sends_again
        (ws : list world) (w : world) (d : string) (it : row) :
  utcnow_date w = Returns d ->
  it ∈ filtered_of w ->
  (forall ev, ev ∈ sent_log (after_cycles ws initial_state) ->
              ev_ok ev = true -> ev_day ev <> d) ->
  exists ev, ev ∈ cycle_events w (after_cycles ws initial_state)
             /\ ev_symbol ev = symbol it /\ ev_day ev = d
             /\ (symbol it <> "" ->
                 ev_text ev
                 = message (symbol it) (change_24h it) (volume_24h it)).
Proof.
  intros Hd Hit Hfresh.
  destruct (cycle_ledger w (after_cycles ws initial_state))
    as (evs & _ & Hevs & _ & Hsend).
  destruct (Hsend d Hd it Hit) as [Hin|(ev & Hev & Hsym & Hday)].
  - apply (ledger_exact ws initial_state) in Hin.
    + destruct Hin as (ev & Hev & Hkey & Hok).
      apply key_splits in Hkey as [_ Hday].
      * now destruct (Hfresh ev Hev Hok).
      * apply (trace_symbols_no_pipe ws initial_state); [|assumption].
        intros ev' Hk. inversion Hk.
      * now apply (filtered_symbol_no_pipe w).
    + intros k. split.
      * intros Hk. now apply not_elem_of_empty in Hk.
      * intros (ev & Hk & _). inversion Hk.
  - rewrite <- Hevs in Hev. exists ev. repeat split; try assumption.
    intros Hne. destruct (cycle_events_rows _ _ _ Hev) as (it' & Hit' & Hs' & ->).
    assert (it' = it) as ->; [|reflexivity].
    apply (NoDup_fmap_eq dedup_key (filtered_of w));
      [apply filtered_of_NoDup | assumption | assumption |].
    unfold dedup_key. rewrite <- Hs', Hsym.
    destruct (symbol it); [contradiction | reflexivity].
Qed.

Lemma new_day_sends_again_witness :
  exists ev,
    ev ∈ cycle_events
           (world_of xrp_row_soup "2024-05-02" true 1714608000%Z)
           (after_cycles
              [world_of xrp_row_soup "2024-05-01" true 1714521600%Z]
              initial_state)
    /\ ev_symbol ev = symbol xrp_row /\ ev_day ev = "2024-05-02"
    /\ (symbol xrp_row <> "" ->
        ev_text ev
        = message (symbol xrp_row) (change_24h xrp_row) (volume_24h xrp_row)).
Proof.
  apply new_day_sends_again.
  - reflexivity.
  - vm_compute. apply list_elem_of_here.
  - intros ev Hev _. vm_compute in Hev.
    apply list_elem_of_singleton in Hev. subst ev. discriminate.
Defined.

(** ** A status read during a cycle *)

Lemma cycle_to_notify_spec w st :
  cycle_to_notify w st
  = match utcnow_date w with
    | Returns d =>
        (Returns (filtered_of w), snd (notify_loop w d (filtered_of w) [] st))
    | Raises e => (Raises e, st)
    end.
Proof.
  unfold cycle_to_notify, filtered_of.
  unfold mbind at 1, M_bind at 1, bind at 1.
  unfold try_except at 1. rewrite lightweight_scrape_spec.
  set (items := match scrape_outcome w with
                | Returns items => items
                | Raises _ => []
                end).
  assert (Hitems :
    (let (o, st') := (scrape_outcome w, st) in
     match o with
     | Returns a => (Returns a, st')
     | Raises e => ret [] st'
     end) = (Returns items, st)).
  { unfold items, ret. now destruct (scrape_outcome w). }
  rewrite Hitems. clear Hitems.
  unfold mbind at 1, M_bind at 1, bind at 1, call at 1.
  destruct (utcnow_date w) as [d|e]; [|reflexivity].
  unfold mbind at 1, M_bind at 1, bind at 1.
  destruct (notify_loop_state w d (strong_buy_filter items) [] st) as [nn' ->].
  reflexivity.
Qed.

(** The cycle is the three parts in turn, inside the outer handler. *)
Lemma cycle_in_parts w st :
  scrape_tradingview_and_notify w st
  = try_except
      (filtered ← cycle_to_notify w;
       set_last_run_results filtered;;
       store_time w)
      (fun e => ret tt) st.
Proof.
  rewrite cycle_spec. unfold try_except.
  unfold mbind at 1, M_bind at 1, bind at 1.
  rewrite cycle_to_notify_spec.
  destruct (utcnow_date w) as [d|e]; [|reflexivity].
  unfold store_time, set_last_run_results, set_last_run_time. run.
  now destruct (clock w).
Qed.

(** C10, as the code has it. The cycle assigns the rows and the time
    stamp of the snapshot in two statements. At the statement boundaries
    around them the snapshot is the one of the cycle before, or the one
    the cycle leaves, or, between the two assignments, the rows of this
    cycle with the time stamp of the cycle before; when the day can be
    read this last state is passed through. *)
Theorem status_read_during_cycle (w : world) (st : state) :
  last (states_during w st) = Some (after_cycle w st)
  /\ (forall s, s ∈ states_during w st ->
         snapshot s = snapshot st
         \/ snapshot s = snapshot (after_cycle w st)
         \/ snapshot s = (last_run_time st, filtered_of w))
  /\ (forall d, utcnow_date w = Returns d ->
         exists s, s ∈ states_during w st
                   /\ snapshot s = (last_run_time st, filtered_of w)).
Proof.
  unfold states_during. rewrite cycle_to_notify_spec, after_cycle_spec.
  destruct (utcnow_date w) as [d|e].
  - destruct (notify_loop_spec w d (filtered_of w) [] st)
      as (nn' & evs & ledger & -> & _).
    unfold store_time, set_last_run_results, set_last_run_time. run.
    destruct (clock w) as [t|e]; simpl; (split; [reflexivity|]); split.
    + intros s Hs. unfold snapshot. simpl.
      repeat (apply elem_of_cons in Hs as [->|Hs]); simpl; auto.
      inversion Hs.
    + intros d' _. eexists. split.
      * apply list_elem_of_further, list_elem_of_further, list_elem_of_here.
      * reflexivity.
    + intros s Hs. unfold snapshot. simpl.
      repeat (apply elem_of_cons in Hs as [->|Hs]); simpl; auto.
      inversion Hs.
    + intros d' _. eexists. split.
      * apply list_elem_of_further, list_elem_of_further, list_elem_of_here.
      * reflexivity.
  - simpl. split; [reflexivity|]. split.
    + intros s Hs.
      repeat (apply elem_of_cons in Hs as [->|Hs]); auto. inversion Hs.
    + intros d [=].
Qed.

(** C10 fails as stated: in a cycle that finds the BTC row after a cycle
    that had stored the XRP row, the state between the two assignments
    pairs the rows of this cycle with the time stamp of the cycle before,
    which is the snapshot of neither cycle. *)
Lemma status_read_can_meet_a_mix :
  snapshot <$> states_during world_btc earlier_state
  = [ (1714435200%Z, [xrp_row]);
      (1714435200%Z, [xrp_row]);
      (1714435200%Z, [btc_row]);
      (1714521600%Z, [btc_row]) ]
  /\ snapshot earlier_state = (1714435200%Z, [xrp_row])
  /\ snapshot (after_cycle world_btc earlier_state)
     = (1714521600%Z, [btc_row]).
Proof. repeat split; vm_compute; reflexivity. Qed.
